(** * Integrated-Circuit-Simulation-Platform: circuit core and plugin system

    A shallow embedding of the circuit classes ([core/circuit.h] and their
    implementation), of the plugin system ([plugins/plugin_system.h],
    [plugins/plugin_system.cpp]) and of the example plugin
    ([plugins/example_plugin.cpp]).

    - [double] is IEEE-754 binary64: Rocq's primitive [float], with the
      kernel's own addition, subtraction, multiplication, division and
      comparisons.  Where a proof needs more than evaluation, it uses the
      specification of these operations in [FloatAxioms].
    - [std::shared_ptr<T>] is an address into an object store; a null
      pointer is [None].  Objects that are reached through several pointers
      (a [Node] owned by the circuit and attached to components) live once
      in the store, so a write through one pointer is seen through all.
    - [std::map<std::string, T>] is a [gmap string T]; a range-for over it
      visits the entries in ascending key order ([std_map_items]).
    - A dereference of an address that is not in the store (undefined
      behaviour in the program) makes the operation answer [None].
    - The virtual functions and the destructor of a plugin instance are
      code of the library that made it: destroying an instance once that
      library is no longer loaded (undefined behaviour in the program)
      makes the operation answer [None] too.
    - [std::exp], the dynamic loader and [std::filesystem] are parameters.
    - Console output ([std::cout], [std::cerr]) is not part of the model. *)

From Stdlib Require Import Floats ZArith.
#[local] Set Warnings "-inexact-float".

From stdpp Require Import base option list gmap strings sorting.

(** ** Entries of a [std::map] in iteration order *)

Definition key_le {V : Type} (a b : string * V) : Prop :=
  String.leb a.1 b.1 = true.

#[global] Instance key_le_dec {V : Type} (a b : string * V) :
  Decision (key_le a b).
Proof. unfold key_le. apply _. Defined.

Definition std_map_items {V : Type} (m : gmap string V) : list (string * V) :=
  merge_sort key_le (map_to_list m).

(** ** Node *)

Module Node.

Record t : Type := make {
  id_ : string;
  voltage_ : float;
  connected_components_ : list nat  (* weak back-references *)
}.

Definition new (id : string) : t := make id 0%float [].

Definition setVoltage (voltage : float) (self : t) : t :=
  make (id_ self) voltage (connected_components_ self).

Definition getVoltage (self : t) : float := voltage_ self.

Definition addComponent (component : nat) (self : t) : t :=
  make (id_ self) (voltage_ self) (connected_components_ self ++ [component]).

Definition getId (self : t) : string := id_ self.

End Node.

(** The two terminals a two-terminal device reads: [nodes_[0]] and
    [nodes_[1]], dereferenced in the node store. *)
Definition terminal_voltage (mem : gmap nat Node.t) (nodes_ : list nat)
    (i : nat) : option float :=
  p ← nodes_ !! i; n ← mem !! p; Some (Node.getVoltage n).

(** ** Built-in components *)

Module Resistor.

Record t : Type := make { resistance_ : float; current_ : float }.

Definition new (resistance : float) : t := make resistance 0%float.

Definition simulate (mem : gmap nat Node.t) (nodes_ : list nat)
    (timestep : float) (self : t) : option t :=
  if decide (2 ≤ length nodes_) then
    v0 ← terminal_voltage mem nodes_ 0;
    v1 ← terminal_voltage mem nodes_ 1;
    let voltage_diff := (v0 - v1)%float in
    Some (make (resistance_ self) (voltage_diff / resistance_ self)%float)
  else Some self.

Definition getCurrentValue (self : t) : float := current_ self.
Definition getResistance (self : t) : float := resistance_ self.

End Resistor.

Module Capacitor.

Record t : Type := make {
  capacitance_ : float;
  charge_ : float;
  voltage_ : float
}.

Definition new (capacitance : float) : t :=
  make capacitance 0%float 0%float.

Definition simulate (mem : gmap nat Node.t) (nodes_ : list nat)
    (timestep : float) (self : t) : option t :=
  if decide (2 ≤ length nodes_) then
    v0 ← terminal_voltage mem nodes_ 0;
    v1 ← terminal_voltage mem nodes_ 1;
    let new_voltage := (v0 - v1)%float in
    let current :=
      (capacitance_ self * (new_voltage - voltage_ self) / timestep)%float in
    Some (make (capacitance_ self)
               (charge_ self + current * timestep)%float
               new_voltage)
  else Some self.

Definition getCurrentValue (self : t) : float := voltage_ self.
Definition getCapacitance (self : t) : float := capacitance_ self.

End Capacitor.

(** ** Components of the example plugin *)

Module Inductor.

Record t : Type := make {
  inductance_ : float;
  current_ : float;
  voltage_ : float
}.

Definition new (inductance : float) : t :=
  make inductance 0%float 0%float.

Definition simulate (mem : gmap nat Node.t) (nodes_ : list nat)
    (timestep : float) (self : t) : option t :=
  if decide (2 ≤ length nodes_) then
    v0 ← terminal_voltage mem nodes_ 0;
    v1 ← terminal_voltage mem nodes_ 1;
    let voltage_diff := (v0 - v1)%float in
    let current_change := (voltage_diff * timestep / inductance_ self)%float in
    Some (make (inductance_ self)
               (current_ self + current_change)%float
               voltage_diff)
  else Some self.

Definition getCurrentValue (self : t) : float := current_ self.
Definition getInductance (self : t) : float := inductance_ self.

End Inductor.

Module Diode.

Record t : Type := make { forward_voltage_ : float; current_ : float }.

Definition new (forward_voltage : float) : t := make forward_voltage 0%float.

Section WithExp.
(** [std::exp] of the C++ library, taken as given. *)
Variable exp : float → float.

Definition simulate (mem : gmap nat Node.t) (nodes_ : list nat)
    (timestep : float) (self : t) : option t :=
  if decide (2 ≤ length nodes_) then
    v0 ← terminal_voltage mem nodes_ 0;
    v1 ← terminal_voltage mem nodes_ 1;
    let voltage_diff := (v0 - v1)%float in
    if (forward_voltage_ self <? voltage_diff)%float then
      Some (make (forward_voltage_ self)
                 (1e-12 * (exp (voltage_diff / 0.026) - 1))%float)
    else
      Some (make (forward_voltage_ self) (- 1e-12)%float)
  else Some self.

End WithExp.

Definition getCurrentValue (self : t) : float := current_ self.

End Diode.

(** ** Component: the base class with its dynamic type *)

Module Component.

Inductive dyn : Type :=
  | IsResistor (r : Resistor.t)
  | IsCapacitor (c : Capacitor.t)
  | IsInductor (l : Inductor.t)
  | IsDiode (d : Diode.t).

Record t : Type := make {
  id_ : string;
  nodes_ : list nat;  (* shared pointers to the attached nodes *)
  self_ : dyn
}.

Definition new (d : dyn) : t := make "" [] d.

Definition setId (id : string) (self : t) : t :=
  make id (nodes_ self) (self_ self).

Definition getId (self : t) : string := id_ self.

Definition getType (self : t) : string :=
  match self_ self with
  | IsResistor _ => "Resistor"
  | IsCapacitor _ => "Capacitor"
  | IsInductor _ => "Inductor"
  | IsDiode _ => "Diode"
  end.

Definition getCurrentValue (self : t) : float :=
  match self_ self with
  | IsResistor r => Resistor.getCurrentValue r
  | IsCapacitor c => Capacitor.getCurrentValue c
  | IsInductor l => Inductor.getCurrentValue l
  | IsDiode d => Diode.getCurrentValue d
  end.

(** Virtual dispatch of [simulate(timestep)]. *)
Definition simulate (exp : float → float) (mem : gmap nat Node.t)
    (timestep : float) (self : t) : option t :=
  d ← match self_ self with
      | IsResistor r =>
          IsResistor <$> Resistor.simulate mem (nodes_ self) timestep r
      | IsCapacitor c =>
          IsCapacitor <$> Capacitor.simulate mem (nodes_ self) timestep c
      | IsInductor l =>
          IsInductor <$> Inductor.simulate mem (nodes_ self) timestep l
      | IsDiode d =>
          IsDiode <$> Diode.simulate exp mem (nodes_ self) timestep d
      end;
  Some (make (id_ self) (nodes_ self) d).

End Component.

(** ** The object store *)

Record Store : Type := mkStore {
  node_objs : gmap nat Node.t;
  component_objs : gmap nat Component.t
}.

Definition set_node (p : nat) (n : Node.t) (st : Store) : Store :=
  mkStore (<[p := n]> (node_objs st)) (component_objs st).

Definition set_component (p : nat) (c : Component.t) (st : Store) : Store :=
  mkStore (node_objs st) (<[p := c]> (component_objs st)).

(** [component->connect(node)]: the same body in all four classes. *)
Definition connect (component node : nat) (st : Store) : option Store :=
  c ← component_objs st !! component;
  n ← node_objs st !! node;
  Some (set_node node (Node.addComponent component n)
         (set_component component
            (Component.make (Component.id_ c) (Component.nodes_ c ++ [node])
               (Component.self_ c)) st)).

(** [component->simulate(timestep)] through a pointer. *)
Definition simulate_at (exp : float → float) (timestep : float)
    (component : nat) (st : Store) : option Store :=
  c ← component_objs st !! component;
  c' ← Component.simulate exp (node_objs st) timestep c;
  Some (set_component component c' st).

(** [node->setVoltage(voltage)] through a pointer. *)
Definition setVoltage_at (voltage : float) (node : nat) (st : Store) :
    option Store :=
  n ← node_objs st !! node;
  Some (set_node node (Node.setVoltage voltage n) st).

(** ** Circuit *)

(** How a call of [Circuit::simulate] that is given [fuel] loop iterations
    ends: it returned (with the store it left and the number of
    [component->simulate] calls it made), it was still looping when the fuel
    ran out, or it dereferenced an address outside the store. *)
Inductive outcome : Type :=
  | Returned (st : Store) (calls : nat)
  | OutOfFuel
  | Crashed.

Module Circuit.

Record t : Type := make {
  name_ : string;
  components_ : gmap string nat;
  nodes_ : gmap string nat
}.

Definition new (name : string) : t := make name ∅ ∅.

Definition getName (self : t) : string := name_ self.

Definition addComponent (component : option nat) (st : Store) (self : t) :
    option t :=
  match component with
  | None => Some self
  | Some p =>
      c ← component_objs st !! p;
      if decide (Component.getId c = "") then Some self
      else Some (make (name_ self)
                      (<[Component.getId c := p]> (components_ self))
                      (nodes_ self))
  end.

Definition addNode (node : option nat) (st : Store) (self : t) : option t :=
  match node with
  | None => Some self
  | Some p =>
      n ← node_objs st !! p;
      if decide (Node.getId n = "") then Some self
      else Some (make (name_ self) (components_ self)
                      (<[Node.getId n := p]> (nodes_ self)))
  end.

Definition getNode (id : string) (self : t) : option nat := nodes_ self !! id.

Definition getComponent (id : string) (self : t) : option nat :=
  components_ self !! id.

(** The inner [for] of [simulate]: one pass over [components_]. *)
Fixpoint simulate_all (exp : float → float) (timestep : float)
    (items : list (string * nat)) (st : Store) : option Store :=
  match items with
  | [] => Some st
  | (_, component) :: rest =>
      st' ← simulate_at exp timestep component st;
      simulate_all exp timestep rest st'
  end.

(** The [while (time < duration)] loop. *)
Fixpoint simulate_loop (exp : float → float) (fuel : nat) (self : t)
    (duration timestep time : float) (calls : nat) (st : Store) : outcome :=
  if (time <? duration)%float then
    match fuel with
    | O => OutOfFuel
    | S fuel' =>
        match simulate_all exp timestep (std_map_items (components_ self)) st
        with
        | None => Crashed
        | Some st' =>
            simulate_loop exp fuel' self duration timestep
              (time + timestep)%float
              (calls + length (std_map_items (components_ self))) st'
        end
    end
  else Returned st calls.

Definition simulate (exp : float → float) (fuel : nat) (self : t)
    (duration timestep : float) (st : Store) : outcome :=
  simulate_loop exp fuel self duration timestep 0%float 0 st.

Fixpoint reset_all (items : list (string * nat)) (st : Store) :
    option Store :=
  match items with
  | [] => Some st
  | (_, node) :: rest =>
      st' ← setVoltage_at 0%float node st;
      reset_all rest st'
  end.

Definition reset (self : t) (st : Store) : option Store :=
  reset_all (std_map_items (nodes_ self)) st.

End Circuit.

(** Every pointer the circuit and its components hold is an address of a
    live object: what [std::shared_ptr] guarantees in the program. *)
Definition store_closed (c : Circuit.t) (st : Store) : Prop :=
  (∀ id p, Circuit.nodes_ c !! id = Some p → is_Some (node_objs st !! p)) ∧
  (∀ id p, Circuit.components_ c !! id = Some p →
     is_Some (component_objs st !! p)) ∧
  (∀ p comp n, component_objs st !! p = Some comp →
     n ∈ Component.nodes_ comp → is_Some (node_objs st !! n)).

(** ** Plugins *)

(** An object behind an [IPlugin*]: its private state and the virtual
    methods of the interface.  The mutating methods return the new state. *)
Record IPlugin : Type := mkIPlugin {
  plugin_state : Type;
  plugin_self : plugin_state;
  v_getName : plugin_state → string;
  v_getVersion : plugin_state → string;
  v_getDescription : plugin_state → string;
  v_initialize : plugin_state → bool * plugin_state;
  v_cleanup : plugin_state → plugin_state;
  v_createComponent :
    plugin_state → string → gmap string float → option Component.t;
  v_getSupportedComponents : plugin_state → list string
}.

Definition IPlugin_getName (p : IPlugin) : string :=
  v_getName p (plugin_self p).

Definition IPlugin_with (p : IPlugin) (s : plugin_state p) : IPlugin :=
  mkIPlugin (plugin_state p) s (v_getName p) (v_getVersion p)
    (v_getDescription p) (v_initialize p) (v_cleanup p)
    (v_createComponent p) (v_getSupportedComponents p).

Definition IPlugin_initialize (p : IPlugin) : bool * IPlugin :=
  let (ok, s) := v_initialize p (plugin_self p) in (ok, IPlugin_with p s).

Definition IPlugin_cleanup (p : IPlugin) : IPlugin :=
  IPlugin_with p (v_cleanup p (plugin_self p)).

Definition IPlugin_getSupportedComponents (p : IPlugin) : list string :=
  v_getSupportedComponents p (plugin_self p).

Definition IPlugin_createComponent (p : IPlugin) (type : string)
    (parameters : gmap string float) : option Component.t :=
  v_createComponent p (plugin_self p) type parameters.

Module BasePlugin.

(** The members of [BasePlugin]; [derived_] holds what a subclass adds. *)
Record t (D : Type) : Type := make {
  name_ : string;
  version_ : string;
  description_ : string;
  initialized_ : bool;
  derived_ : D
}.
Arguments make {D} _ _ _ _ _.
Arguments name_ {D} _.
Arguments version_ {D} _.
Arguments description_ {D} _.
Arguments initialized_ {D} _.
Arguments derived_ {D} _.

(** What a subclass has to supply.  The members are [protected], so the
    hooks see, and may change, the whole object. *)
Class Subclass (D : Type) : Type := {
  doInitialize : t D → bool * t D;
  doCleanup : t D → t D;
  createComponent : t D → string → gmap string float → option Component.t;
  getSupportedComponents : t D → list string
}.

Definition new {D : Type} (name version description : string) (d : D) : t D :=
  make name version description false d.

Definition set_initialized {D : Type} (b : bool) (self : t D) : t D :=
  make (name_ self) (version_ self) (description_ self) b (derived_ self).

Section Methods.
Context {D : Type} `{Subclass D}.

Definition getName (self : t D) : string := name_ self.
Definition getVersion (self : t D) : string := version_ self.
Definition getDescription (self : t D) : string := description_ self.

Definition initialize (self : t D) : bool * t D :=
  if negb (initialized_ self) then
    let (ok, self') := doInitialize self in
    (ok, set_initialized ok self')
  else (initialized_ self, self).

Definition cleanup (self : t D) : t D :=
  if initialized_ self then set_initialized false (doCleanup self)
  else self.

(** The object seen through an [IPlugin*]. *)
Definition as_IPlugin (self : t D) : IPlugin :=
  mkIPlugin (t D) self getName getVersion getDescription initialize cleanup
    createComponent getSupportedComponents.
End Methods.

End BasePlugin.

Module ExamplePlugin.

Definition parameter (parameters : gmap string float) (key : string)
    (default : float) : float :=
  match parameters !! key with Some v => v | None => default end.

#[global] Instance subclass : BasePlugin.Subclass unit := {
  doInitialize self := (true, self);
  doCleanup self := self;
  createComponent _ type parameters :=
    if decide (type = "Inductor") then
      Some (Component.new (Component.IsInductor
              (Inductor.new (parameter parameters "inductance" 1e-3%float))))
    else if decide (type = "Diode") then
      Some (Component.new (Component.IsDiode
              (Diode.new (parameter parameters "forward_voltage" 0.7%float))))
    else None;
  getSupportedComponents _ := ["Inductor"; "Diode"]
}.

Definition new : BasePlugin.t unit :=
  BasePlugin.new "ExamplePlugin" "1.0.0"
    "Example plugin with inductor and diode components" tt.

(** [createPlugin()] as [DECLARE_PLUGIN] exports it. *)
Definition createPlugin (_ : unit) : option IPlugin :=
  Some (BasePlugin.as_IPlugin new).

End ExamplePlugin.

(** ** The platform: dynamic loader and file system *)

Inductive Platform : Type := Windows | Posix.

Definition LIBRARY_EXTENSION (os : Platform) : string :=
  match os with Windows => ".dll" | Posix => ".so" end.

(** [dlopen]/[LoadLibraryA] and [dlsym]/[GetProcAddress]: a library handle
    or null, and the factory a library exports under a symbol name or null. *)
Record Loader : Type := mkLoader {
  LOAD_LIBRARY : string → option nat;
  GET_PROC_ADDRESS : nat → string → option (unit → option IPlugin)
}.

(** A call into [std::filesystem] answers or throws [filesystem_error]. *)
Inductive fs_result (A : Type) : Type :=
  | FsOk (a : A)
  | FsError.
Arguments FsOk {A} _.
Arguments FsError {A}.

Record directory_entry : Type := mkEntry {
  entry_path : string;          (* entry.path().string() *)
  entry_filename : string;      (* entry.path().filename().string() *)
  entry_is_regular_file : fs_result bool
}.

(** [directory_iterator(directory)] answers the entries in the order the
    iterator yields them; an [FsError] in the list is an increment that
    throws. *)
Record FileSystem : Type := mkFileSystem {
  fs_exists : string → fs_result bool;
  fs_is_directory : string → fs_result bool;
  fs_directory_iterator : string → fs_result (list (fs_result directory_entry))
}.

(** ** [std::sort] and [std::unique] on a vector of strings *)

Definition str_le (a b : string) : Prop := String.leb a b = true.
Definition str_lt (a b : string) : Prop := String.ltb a b = true.

#[global] Instance str_le_dec (a b : string) : Decision (str_le a b).
Proof. unfold str_le. apply _. Defined.

Definition std_sort (l : list string) : list string := merge_sort str_le l.

(** [std::unique] followed by [erase]: an element equal to the one kept
    before it is dropped. *)
Fixpoint unique_from (prev : string) (l : list string) : list string :=
  match l with
  | [] => []
  | x :: rest =>
      if decide (x = prev) then unique_from prev rest
      else x :: unique_from x rest
  end.

Definition std_unique (l : list string) : list string :=
  match l with
  | [] => []
  | x :: rest => x :: unique_from x rest
  end.

(** ** PluginManager *)

Module PluginManager.

Record t : Type := make {
  plugins_ : gmap string IPlugin;
  plugin_handles_ : gmap string nat
}.

(** The singleton together with the libraries the process holds open
    (one occurrence per [LOAD_LIBRARY] that was not yet closed). *)
Record Process : Type := mkProcess {
  instance : t;
  open_libraries : list nat
}.

Definition library_opened (handle : nat) (w : Process) : Process :=
  mkProcess (instance w) (handle :: open_libraries w).

Fixpoint remove_first (handle : nat) (l : list nat) : list nat :=
  match l with
  | [] => []
  | h :: rest => if decide (h = handle) then rest
                 else h :: remove_first handle rest
  end.

Definition CLOSE_LIBRARY (handle : nat) (w : Process) : Process :=
  mkProcess (instance w) (remove_first handle (open_libraries w)).

(** [loadPlugin] answers the returned flag with the process it leaves, or
    [None] when the call has no defined result.  The local
    [std::shared_ptr<IPlugin> plugin] is the only owner of the instance
    until it is stored in [plugins_]; the instance's destructor is code of
    the library [handle].  Where [initialize()] fails, [CLOSE_LIBRARY(handle)]
    comes before the [return] that destroys [plugin]: the destructor is
    still there only when the library stays loaded, that is when an earlier
    [LOAD_LIBRARY] of it was not closed yet. *)
Definition loadPlugin (ld : Loader) (plugin_path : string) (w : Process) :
    option (bool * Process) :=
  match LOAD_LIBRARY ld plugin_path with
  | None => Some (false, w)
  | Some handle =>
      let w := library_opened handle w in
      match GET_PROC_ADDRESS ld handle "createPlugin" with
      | None => Some (false, CLOSE_LIBRARY handle w)
      | Some createPlugin =>
          match createPlugin () with
          | None => Some (false, CLOSE_LIBRARY handle w)
          | Some plugin =>
              let (ok, plugin) := IPlugin_initialize plugin in
              if negb ok then
                let w := CLOSE_LIBRARY handle w in
                (* return false: [plugin] is destroyed here *)
                if decide (handle ∈ open_libraries w) then Some (false, w)
                else None
              else
                let plugin_name := IPlugin_getName plugin in
                Some (true,
                      mkProcess
                        (make
                           (<[plugin_name := plugin]> (plugins_ (instance w)))
                           (<[plugin_name := handle]>
                              (plugin_handles_ (instance w))))
                        (open_libraries w))
          end
      end
  end.

Definition getLoadedPlugins (self : t) : list string :=
  (std_map_items (plugins_ self)).*1.

Definition getPlugin (name : string) (self : t) : option IPlugin :=
  plugins_ self !! name.

Definition unloadPlugin (plugin_name : string) (w : Process) :
    bool * Process :=
  match plugins_ (instance w) !! plugin_name with
  | None => (false, w)
  | Some plugin =>
      (* plugin->cleanup() runs on the object that is erased next *)
      let _ := IPlugin_cleanup plugin in
      let plugins := delete plugin_name (plugins_ (instance w)) in
      match plugin_handles_ (instance w) !! plugin_name with
      | Some handle =>
          (true,
           mkProcess
             (make plugins (delete plugin_name (plugin_handles_ (instance w))))
             (remove_first handle (open_libraries w)))
      | None =>
          (true,
           mkProcess (make plugins (plugin_handles_ (instance w)))
             (open_libraries w))
      end
  end.

Definition unloadAllPlugins (w : Process) : Process :=
  let plugin_names := (std_map_items (plugins_ (instance w))).*1 in
  foldl (λ w name, (unloadPlugin name w).2) w plugin_names.

(** The [for] of [createComponent]: the first plugin, in registry order,
    that lists the type and produces a component. *)
Fixpoint createComponent_loop (items : list (string * IPlugin))
    (type : string) (parameters : gmap string float) : option Component.t :=
  match items with
  | [] => None
  | (_, plugin) :: rest =>
      if decide (type ∈ IPlugin_getSupportedComponents plugin) then
        match IPlugin_createComponent plugin type parameters with
        | Some component => Some component
        | None => createComponent_loop rest type parameters
        end
      else createComponent_loop rest type parameters
  end.

Definition createComponent (self : t) (type : string)
    (parameters : gmap string float) : option Component.t :=
  createComponent_loop (std_map_items (plugins_ self)) type parameters.

Definition getAllSupportedComponents (self : t) : list string :=
  let all_components :=
    mjoin ((λ kv, IPlugin_getSupportedComponents kv.2)
           <$> std_map_items (plugins_ self)) in
  std_unique (std_sort all_components).

(** The body of the [for] over the directory: stops at the first throw,
    which is caught after the loop, so what was pushed so far is returned. *)
Fixpoint discover_loop (os : Platform)
    (entries : list (fs_result directory_entry))
    (discovered_plugins : list string) : list string :=
  match entries with
  | [] => discovered_plugins
  | FsError :: _ => discovered_plugins
  | FsOk entry :: rest =>
      match entry_is_regular_file entry with
      | FsError => discovered_plugins
      | FsOk false => discover_loop os rest discovered_plugins
      | FsOk true =>
          match String.index 0 (LIBRARY_EXTENSION os) (entry_filename entry)
          with
          | Some _ =>
              discover_loop os rest (discovered_plugins ++ [entry_path entry])
          | None => discover_loop os rest discovered_plugins
          end
      end
  end.

Definition discoverPlugins (os : Platform) (fs : FileSystem)
    (directory : string) : list string :=
  match fs_exists fs directory with
  | FsOk true =>
      match fs_is_directory fs directory with
      | FsOk true =>
          match fs_directory_iterator fs directory with
          | FsOk entries => discover_loop os entries []
          | FsError => []
          end
      | _ => []
      end
  | _ => []
  end.

End PluginManager.

(** ** CudaSimulationEngine: the CPU-only implementation *)

Module CudaSimulationEngine.

(** [std::vector::resize(n, value)]. *)
Definition resize {A : Type} (n : nat) (value : A) (v : list A) : list A :=
  take n v ++ replicate (n - length v) value.

Definition initialize : bool := false.
Definition isAvailable : bool := false.

(** The [for (j ...)] of [solveLinearSystem]: [sum -= matrix[i][j] *
    solution[j]] for every [j] other than [i]. *)
Fixpoint row_sum (row solution : list float) (i todo j : nat)
    (sum : float) : option float :=
  match todo with
  | O => Some sum
  | S todo' =>
      if decide (i ≠ j) then
        m ← row !! j;
        x ← solution !! j;
        row_sum row solution i todo' (S j) (sum - m * x)%float
      else row_sum row solution i todo' (S j) sum
  end.

(** The [for (i ...)]: one Gauss-Seidel sweep, rows [i .. i + todo - 1]. *)
Fixpoint sweep (matrix : list (list float)) (rhs : list float) (n : nat)
    (todo i : nat) (solution : list float) : option (list float) :=
  match todo with
  | O => Some solution
  | S todo' =>
      b ← rhs !! i;
      row ← matrix !! i;
      sum ← row_sum row solution i n 0 b;
      d ← row !! i;
      sweep matrix rhs n todo' (S i)
        (if negb (d =? 0)%float then <[i := (sum / d)%float]> solution
         else solution)
  end.

Fixpoint iterate (iterations : nat) (matrix : list (list float))
    (rhs : list float) (n : nat) (solution : list float) :
    option (list float) :=
  match iterations with
  | O => Some solution
  | S k =>
      solution' ← sweep matrix rhs n n 0 solution;
      iterate k matrix rhs n solution'
  end.

(** Answers the returned flag with the final contents of [solution]. *)
Definition solveLinearSystem (matrix : list (list float))
    (rhs solution : list float) : option (bool * list float) :=
  let n := length matrix in
  let solution := resize n 0%float solution in
  solution' ← iterate 100 matrix rhs n solution;
  Some (true, solution').

Fixpoint simulate_loop (todo i : nat) (voltages resistances : list float)
    (currents : list float) : option (list float) :=
  match todo with
  | O => Some currents
  | S todo' =>
      r ← resistances !! i;
      if (0 <? r)%float then
        v ← voltages !! i;
        simulate_loop todo' (S i) voltages resistances
          (<[i := (v / r)%float]> currents)
      else simulate_loop todo' (S i) voltages resistances currents
  end.

(** Answers the returned flag with the final contents of [currents].  A
    negative [num_components] makes [resize] throw. *)
Definition simulateComponents (voltages currents resistances : list float)
    (timestep : float) (num_components : Z) : option (bool * list float) :=
  if (num_components <? 0)%Z then None
  else
    let n := Z.to_nat num_components in
    currents' ← simulate_loop n 0 voltages resistances
                  (resize n 0%float currents);
    Some (true, currents').

End CudaSimulationEngine.

(** * Specification predicates and scenarios *)

(** [terminals_live st]: the nodes every component is attached to are live. *)
Definition terminals_live (st : Store) : Prop :=
  ∀ p comp n, component_objs st !! p = Some comp →
    n ∈ Component.nodes_ comp → is_Some (node_objs st !! n).

(** Components whose reading depends on the node voltages only. *)
Definition memoryless (c : Component.t) : Prop :=
  match Component.self_ c with
  | Component.IsResistor _ | Component.IsDiode _ => True
  | _ => False
  end.

#[global] Instance memoryless_dec c : Decision (memoryless c).
Proof. unfold memoryless. destruct (Component.self_ c); apply _. Defined.

(** [settled exp dt st p]: a [simulate(dt)] of the component at [p] would
    leave it as it is. *)
Definition settled (exp : float → float) (dt : float) (st : Store)
    (p : nat) : Prop :=
  ∃ c, component_objs st !! p = Some c ∧
       Component.simulate exp (node_objs st) dt c = Some c.

(** The value of [time] after [n] iterations of the loop of
    [Circuit::simulate]: [n] binary64 additions of [timestep] to 0.0. *)
Definition time_after (timestep : float) (n : nat) : float :=
  Nat.iter n (λ time, (time + timestep)%float) 0%float.

(** A binary64 value (as the kernel specifies it) that is zero, finite or
    infinite with the given sign. *)
Definition has_sign (s : bool) (x : spec_float) : Prop :=
  match x with
  | S754_zero s' | S754_infinity s' | S754_finite s' _ _ => s' = s
  | S754_nan => False
  end.

(** Zero of either sign, or negative. *)
Definition nonpos (x : spec_float) : Prop :=
  match x with
  | S754_zero _ => True
  | S754_infinity s | S754_finite s _ _ => s = true
  | S754_nan => False
  end.

(** The smallest positive double, [2^-1074], and [2^53] times it: the value
    at which adding the former no longer changes the sum. *)
Definition least_positive : float := 0x1p-1074%float.
Definition stall_point : float := 0x1p-1021%float.

(** The values [time] takes when [least_positive] is added again and again
    to 0.0: zero, a multiple of [2^-1074] with exponent [-1074], or
    [stall_point]. *)
Definition below_stall (t : float) : Prop :=
  Prim2SF t = S754_zero false ∨
  (∃ m, Prim2SF t = S754_finite false m (-1074)) ∨
  t = stall_point.

(** [registry_consistent w]: the registry and the handle map of the
    manager hold the same names. *)
Definition registry_consistent (w : PluginManager.Process) : Prop :=
  dom (PluginManager.plugins_ (PluginManager.instance w))
  = dom (PluginManager.plugin_handles_ (PluginManager.instance w)).

(** The four ways a load fails. *)
Inductive load_failure (ld : Loader) (plugin_path : string) : Prop :=
  | cannot_open :
      LOAD_LIBRARY ld plugin_path = None →
      load_failure ld plugin_path
  | no_factory_symbol handle :
      LOAD_LIBRARY ld plugin_path = Some handle →
      GET_PROC_ADDRESS ld handle "createPlugin" = None →
      load_failure ld plugin_path
  | no_instance handle createPlugin :
      LOAD_LIBRARY ld plugin_path = Some handle →
      GET_PROC_ADDRESS ld handle "createPlugin" = Some createPlugin →
      createPlugin () = None →
      load_failure ld plugin_path
  | initialize_failed handle createPlugin plugin :
      LOAD_LIBRARY ld plugin_path = Some handle →
      GET_PROC_ADDRESS ld handle "createPlugin" = Some createPlugin →
      createPlugin () = Some plugin →
      (IPlugin_initialize plugin).1 = false →
      load_failure ld plugin_path.

(** [ends_with suffix s]: the last [length suffix] characters of [s] are
    [suffix]. *)
Definition ends_with (suffix s : string) : bool :=
  bool_decide
    (String.substring (String.length s - String.length suffix)
       (String.length suffix) s = suffix).

#[global] Instance fs_result_eq_dec {A : Type} `{EqDecision A} :
  EqDecision (fs_result A).
Proof. solve_decision. Defined.

(** What the loop of [discoverPlugins] pushes for an entry. *)
Definition matches (os : Platform) (entry : directory_entry) : Prop :=
  entry_is_regular_file entry = FsOk true ∧
  String.index 0 (LIBRARY_EXTENSION os) (entry_filename entry) ≠ None.

#[global] Instance matches_dec os entry : Decision (matches os entry).
Proof. unfold matches. apply _. Defined.

(** The entries the loop gets to see: those before the first throw, by the
    iterator or by [is_regular_file]. *)
Fixpoint listed (entries : list (fs_result directory_entry)) :
    list directory_entry :=
  match entries with
  | FsOk entry :: rest =>
      match entry_is_regular_file entry with
      | FsError => []
      | FsOk _ => entry :: listed rest
      end
  | _ => []
  end.

(** ** Scenarios *)

(** The scenario of [test_component_connections]: nodes N1 (5 V) and N2
    (0 V) at addresses 1 and 2. *)
Definition two_nodes : gmap nat Node.t :=
  <[1 := Node.setVoltage 5%float (Node.new "N1")]>
    (<[2 := Node.new "N2"]> ∅).

Definition attached (d : Component.dyn) : Component.t :=
  Component.make "X1" [1; 2] d.

(** The circuit of [test_complete_simulation]: nodes VCC (5 V), OUT and GND
    at addresses 1, 2, 3; R1 between VCC and OUT at address 10; C1 between
    OUT and GND at address 11. *)
Definition rc_store : Store :=
  mkStore
    (<[1 := Node.make "VCC" 5%float [10]]>
       (<[2 := Node.make "OUT" 0%float [10; 11]]>
          (<[3 := Node.make "GND" 0%float [11]]> ∅)))
    (<[10 := Component.make "R1" [1; 2]
               (Component.IsResistor (Resistor.new 1000%float))]>
       (<[11 := Component.make "C1" [2; 3]
                  (Component.IsCapacitor (Capacitor.new 1e-6%float))]> ∅)).

Definition rc_circuit : Circuit.t :=
  Circuit.make "Integration Test Circuit"
    (<["R1" := 10]> (<["C1" := 11]> ∅))
    (<["VCC" := 1]> (<["OUT" := 2]> (<["GND" := 3]> ∅))).

(** A plugin whose set-up fails on the first attempt and succeeds on every
    later one; [derived_] counts the attempts. *)
Module FlakyPlugin.

Definition subclass : BasePlugin.Subclass nat := {|
  BasePlugin.doInitialize self :=
    (bool_decide (0 < BasePlugin.derived_ self),
     BasePlugin.make (BasePlugin.name_ self) (BasePlugin.version_ self)
       (BasePlugin.description_ self) (BasePlugin.initialized_ self)
       (S (BasePlugin.derived_ self)));
  BasePlugin.doCleanup self := self;
  BasePlugin.createComponent _ _ _ := None;
  BasePlugin.getSupportedComponents _ := []
|}.

Definition new : BasePlugin.t nat := BasePlugin.new "Flaky" "0.1" "" 0.

End FlakyPlugin.

(** A plugin whose set-up always fails. *)
Module BrokenPlugin.

Definition subclass : BasePlugin.Subclass unit := {|
  BasePlugin.doInitialize self := (false, self);
  BasePlugin.doCleanup self := self;
  BasePlugin.createComponent _ _ _ := None;
  BasePlugin.getSupportedComponents _ := []
|}.

Definition createPlugin (_ : unit) : option IPlugin :=
  Some (@BasePlugin.as_IPlugin unit subclass
          (BasePlugin.new "Broken" "0.0" "" tt)).

End BrokenPlugin.

(** A loader that knows four libraries: the example plugin (handle 1), a
    library without [createPlugin] (2), one whose factory answers null (3)
    and one whose plugin fails to initialize (4). *)
Definition test_loader : Loader := {|
  LOAD_LIBRARY path :=
    if decide (path = "plugins/libexample.so") then Some 1
    else if decide (path = "plugins/libc.so") then Some 2
    else if decide (path = "plugins/libnull.so") then Some 3
    else if decide (path = "plugins/libbroken.so") then Some 4
    else None;
  GET_PROC_ADDRESS handle symbol :=
    if decide (symbol = "createPlugin") then
      match handle with
      | 1 => Some ExamplePlugin.createPlugin
      | 3 => Some (λ _, None)
      | 4 => Some BrokenPlugin.createPlugin
      | _ => None
      end
    else None
|}.

Definition fresh_process : PluginManager.Process :=
  PluginManager.mkProcess (PluginManager.make ∅ ∅) [].

(** The process after the example plugin was loaded. *)
Definition example_loaded : PluginManager.Process :=
  match PluginManager.loadPlugin test_loader "plugins/libexample.so"
          fresh_process with
  | Some (_, w) => w
  | None => fresh_process
  end.

(** A loader with two libraries (handles 1 and 2) that both export the
    example plugin. *)
Definition twin_loader : Loader := {|
  LOAD_LIBRARY path :=
    if decide (path = "plugins/libexample.so") then Some 1
    else if decide (path = "plugins/libcopy.so") then Some 2
    else None;
  GET_PROC_ADDRESS handle symbol :=
    if decide (symbol = "createPlugin") then Some ExamplePlugin.createPlugin
    else None
|}.

(** A file system with one directory, ["plugins/"], whose listing is given. *)
Definition plugins_dir (entries : list (fs_result directory_entry)) :
    FileSystem := {|
  fs_exists d := FsOk (bool_decide (d = "plugins/"));
  fs_is_directory d := FsOk (bool_decide (d = "plugins/"));
  fs_directory_iterator d :=
    if decide (d = "plugins/") then FsOk entries else FsError
|}.

Definition regular_file (name : string) : fs_result directory_entry :=
  FsOk (mkEntry ("plugins/" +:+ name) name (FsOk true)).

(** * Properties *)

(** ** Component update laws *)

Lemma terminal_voltage_Some mem (nodes_ : list nat) i p n :
  nodes_ !! i = Some p → mem !! p = Some n →
  terminal_voltage mem nodes_ i = Some (Node.getVoltage n).
Proof.
  intros Hp Hn. unfold terminal_voltage. rewrite Hp. simpl. rewrite Hn. done.
Qed.

Lemma two_terminals (nodes_ : list nat) p0 p1 :
  nodes_ !! 0 = Some p0 → nodes_ !! 1 = Some p1 → 2 ≤ length nodes_.
Proof.
  intros _ H1. apply lookup_lt_Some in H1. lia.
Qed.

(** C2 (Resistor update law): a Resistor attached to at least two live nodes
    has, after one [simulate(dt)] for any [dt], a [getCurrentValue()] of
    [(nodes_[0] voltage - nodes_[1] voltage) / resistance_]; with resistance
    1000 and voltages 5.0 and 0.0 this is within 1e-9 of 0.005. *)
Theorem resistor_update_law (exp : float → float) (mem : gmap nat Node.t)
    (dt : float) (c : Component.t) (r : Resistor.t) (p0 p1 : nat)
    (n0 n1 : Node.t) :
  Component.self_ c = Component.IsResistor r →
  Component.nodes_ c !! 0 = Some p0 →
  Component.nodes_ c !! 1 = Some p1 →
  mem !! p0 = Some n0 →
  mem !! p1 = Some n1 →
  ∃ c', Component.simulate exp mem dt c = Some c' ∧
        Component.getCurrentValue c' =
          ((Node.getVoltage n0 - Node.getVoltage n1)
           / Resistor.getResistance r)%float ∧
        (Resistor.getResistance r = 1000%float →
         Node.getVoltage n0 = 5%float →
         Node.getVoltage n1 = 0%float →
         (abs (Component.getCurrentValue c' - 0.005) <? 1e-9)%float = true).
Proof.
  intros Hr H0 H1 Hn0 Hn1.
  unfold Component.simulate, Resistor.simulate. rewrite Hr.
  destruct (decide (2 ≤ length (Component.nodes_ c))) as [_|Hlen].
  - rewrite (terminal_voltage_Some _ _ _ _ _ H0 Hn0).
    rewrite (terminal_voltage_Some _ _ _ _ _ H1 Hn1). simpl.
    eexists. split; [reflexivity|]. split; [reflexivity|].
    unfold Component.getCurrentValue, Resistor.getResistance. simpl.
    intros -> -> ->. reflexivity.
  - destruct Hlen. eapply two_terminals; eassumption.
Qed.

Lemma resistor_update_law_witness :
  ∃ c', Component.simulate (λ x, x) two_nodes 1e-6%float
          (attached (Component.IsResistor (Resistor.new 1000%float)))
        = Some c' ∧
        Component.getCurrentValue c' = ((5 - 0) / 1000)%float ∧
        (abs (Component.getCurrentValue c' - 0.005) <? 1e-9)%float = true.
Proof.
  destruct (resistor_update_law (λ x, x) two_nodes 1e-6%float
              (attached (Component.IsResistor (Resistor.new 1000%float)))
              (Resistor.new 1000%float) 1 2
              (Node.setVoltage 5%float (Node.new "N1")) (Node.new "N2"))
    as (c' & Hsim & Hcur & Hnear);
    [reflexivity | reflexivity | reflexivity | reflexivity | reflexivity |].
  exists c'. split; [exact Hsim|]. split; [exact Hcur|].
  apply Hnear; reflexivity.
Defined.

(** C3 (Capacitor update law and reading): a Capacitor attached to at least
    two live nodes gets, by [simulate(dt)], the stored voltage
    [Vc_new = nodes_[0] voltage - nodes_[1] voltage] and the charge
    [Q + C * (Vc_new - Vc) / dt * dt]; [getCurrentValue()] is the stored
    voltage. *)
Theorem capacitor_update_law (exp : float → float) (mem : gmap nat Node.t)
    (dt : float) (c : Component.t) (k : Capacitor.t) (p0 p1 : nat)
    (n0 n1 : Node.t) :
  Component.self_ c = Component.IsCapacitor k →
  Component.nodes_ c !! 0 = Some p0 →
  Component.nodes_ c !! 1 = Some p1 →
  mem !! p0 = Some n0 →
  mem !! p1 = Some n1 →
  let Vc_new := (Node.getVoltage n0 - Node.getVoltage n1)%float in
  ∃ c' k', Component.simulate exp mem dt c = Some c' ∧
        Component.self_ c' = Component.IsCapacitor k' ∧
        Capacitor.voltage_ k' = Vc_new ∧
        Capacitor.charge_ k' =
          (Capacitor.charge_ k
           + Capacitor.capacitance_ k * (Vc_new - Capacitor.voltage_ k)
             / dt * dt)%float ∧
        Capacitor.capacitance_ k' = Capacitor.capacitance_ k ∧
        Component.getCurrentValue c' = Capacitor.voltage_ k'.
Proof.
  intros Hk H0 H1 Hn0 Hn1 Vc_new.
  unfold Component.simulate, Capacitor.simulate. rewrite Hk.
  destruct (decide (2 ≤ length (Component.nodes_ c))) as [_|Hlen].
  - rewrite (terminal_voltage_Some _ _ _ _ _ H0 Hn0).
    rewrite (terminal_voltage_Some _ _ _ _ _ H1 Hn1). simpl.
    eexists _, _. repeat split; reflexivity.
  - destruct Hlen. eapply two_terminals; eassumption.
Qed.

Lemma capacitor_update_law_witness :
  ∃ c' k', Component.simulate (λ x, x) two_nodes 1e-6%float
             (attached (Component.IsCapacitor (Capacitor.new 1e-6%float)))
           = Some c' ∧
        Component.self_ c' = Component.IsCapacitor k' ∧
        Capacitor.voltage_ k' = 5%float ∧
        Capacitor.charge_ k' = (0 + 1e-6 * (5 - 0) / 1e-6 * 1e-6)%float ∧
        Capacitor.capacitance_ k' = 1e-6%float ∧
        Component.getCurrentValue c' = Capacitor.voltage_ k'.
Proof.
  exact (capacitor_update_law (λ x, x) two_nodes 1e-6%float
           (attached (Component.IsCapacitor (Capacitor.new 1e-6%float)))
           (Capacitor.new 1e-6%float) 1 2
           (Node.setVoltage 5%float (Node.new "N1")) (Node.new "N2")
           eq_refl eq_refl eq_refl eq_refl eq_refl).
Defined.

(** C4 (fewer than two nodes): for each of the four component classes,
    [simulate(dt)] on a component with fewer than two attached nodes
    answers normally and leaves the whole object as it was. *)
Theorem simulate_unattached_noop (exp : float → float)
    (mem : gmap nat Node.t) (dt : float) (c : Component.t) :
  length (Component.nodes_ c) < 2 →
  Component.simulate exp mem dt c = Some c.
Proof.
  intros Hlen. destruct c as [id nodes d]. simpl in Hlen.
  unfold Component.simulate; simpl.
  destruct d as [r|k|l|d]; simpl;
    unfold Resistor.simulate, Capacitor.simulate, Inductor.simulate,
      Diode.simulate;
    (destruct (decide (2 ≤ length nodes)); [lia | reflexivity]).
Qed.

Lemma simulate_unattached_noop_witness :
  let once d := Component.make "X1" [1] d in
  Component.simulate (λ x, x) two_nodes 0%float
    (once (Component.IsResistor (Resistor.new 1000%float)))
  = Some (once (Component.IsResistor (Resistor.new 1000%float))) ∧
  Component.simulate (λ x, x) two_nodes 1e-6%float
    (once (Component.IsCapacitor (Capacitor.new 1e-6%float)))
  = Some (once (Component.IsCapacitor (Capacitor.new 1e-6%float))) ∧
  Component.simulate (λ x, x) two_nodes 1e-6%float
    (Component.new (Component.IsInductor (Inductor.new 1e-3%float)))
  = Some (Component.new (Component.IsInductor (Inductor.new 1e-3%float))) ∧
  Component.simulate (λ x, x) two_nodes nan
    (once (Component.IsDiode (Diode.new 0.7%float)))
  = Some (once (Component.IsDiode (Diode.new 0.7%float))).
Proof.
  intros once.
  split; [|split; [|split]]; apply simulate_unattached_noop; simpl; lia.
Defined.

(** ** Iteration over a [std::map] *)

Lemma elem_of_std_map_items {V : Type} (m : gmap string V) k v :
  (k, v) ∈ std_map_items m ↔ m !! k = Some v.
Proof.
  unfold std_map_items. rewrite merge_sort_Permutation.
  apply elem_of_map_to_list.
Qed.

Lemma NoDup_std_map_items_keys {V : Type} (m : gmap string V) :
  NoDup (std_map_items m).*1.
Proof.
  unfold std_map_items. rewrite merge_sort_Permutation.
  apply NoDup_fst_map_to_list.
Qed.

#[global] Instance key_le_total {V : Type} : Total (@key_le V).
Proof. intros a b. unfold key_le. apply String.leb_total. Qed.

(** The entries come in ascending key order. *)
Lemma std_map_items_ascending {V : Type} (m : gmap string V) :
  Sorted key_le (std_map_items m).
Proof. apply Sorted_merge_sort, _. Qed.

Lemma filter_key_absent {V : Type} (l : list (string * V)) k :
  k ∉ l.*1 → filter (λ kv, kv.1 = k) l = [].
Proof.
  induction l as [|[k' v'] l IH]; intros Hk; [done|].
  simpl in Hk. apply not_elem_of_cons in Hk as [Hne Hk].
  rewrite filter_cons. simpl. rewrite decide_False by done. by apply IH.
Qed.

Lemma filter_key_unique {V : Type} (l : list (string * V)) k v :
  NoDup l.*1 → (k, v) ∈ l →
  filter (λ kv, kv.1 = k) l = [(k, v)].
Proof.
  induction l as [|[k' v'] l IH]; intros Hnd Hin.
  - by apply elem_of_nil in Hin.
  - simpl in Hnd. apply NoDup_cons in Hnd as [Hk' Hnd].
    rewrite filter_cons. simpl.
    apply elem_of_cons in Hin as [Heq|Hin].
    + injection Heq as <- <-.
      rewrite decide_True by done. f_equal. by apply filter_key_absent.
    + rewrite decide_False; [by apply IH|].
      intros ->. apply Hk'. apply list_elem_of_fmap. by exists (k, v).
Qed.

(** ** Circuit construction *)

(** C7 (tolerant adds, last write wins): [addComponent] and [addNode] with a
    null pointer or an object whose id is empty leave the circuit as it
    was; after two adds under the same non-empty id the circuit holds one
    entry for that id, which is the second object. *)
Theorem add_tolerant_last_wins (st : Store) (c : Circuit.t) :
  Circuit.addComponent None st c = Some c ∧
  Circuit.addNode None st c = Some c ∧
  (∀ p obj, component_objs st !! p = Some obj → Component.getId obj = "" →
     Circuit.addComponent (Some p) st c = Some c) ∧
  (∀ p obj, node_objs st !! p = Some obj → Node.getId obj = "" →
     Circuit.addNode (Some p) st c = Some c) ∧
  (∀ p1 p2 obj1 obj2 id,
     component_objs st !! p1 = Some obj1 →
     component_objs st !! p2 = Some obj2 →
     Component.getId obj1 = id → Component.getId obj2 = id → id ≠ "" →
     ∃ c1 c2,
       Circuit.addComponent (Some p1) st c = Some c1 ∧
       Circuit.addComponent (Some p2) st c1 = Some c2 ∧
       Circuit.getComponent id c2 = Some p2 ∧
       filter (λ kv, kv.1 = id) (std_map_items (Circuit.components_ c2))
         = [(id, p2)] ∧
       size (Circuit.components_ c2) = size (Circuit.components_ c1)) ∧
  (∀ p1 p2 obj1 obj2 id,
     node_objs st !! p1 = Some obj1 →
     node_objs st !! p2 = Some obj2 →
     Node.getId obj1 = id → Node.getId obj2 = id → id ≠ "" →
     ∃ c1 c2,
       Circuit.addNode (Some p1) st c = Some c1 ∧
       Circuit.addNode (Some p2) st c1 = Some c2 ∧
       Circuit.getNode id c2 = Some p2 ∧
       filter (λ kv, kv.1 = id) (std_map_items (Circuit.nodes_ c2))
         = [(id, p2)] ∧
       size (Circuit.nodes_ c2) = size (Circuit.nodes_ c1)).
Proof.
  split; [reflexivity|]. split; [reflexivity|].
  split; [|split; [|split]].
  - intros p obj Hp Hid. unfold Circuit.addComponent. rewrite Hp. simpl.
    by rewrite decide_True.
  - intros p obj Hp Hid. unfold Circuit.addNode. rewrite Hp. simpl.
    by rewrite decide_True.
  - intros p1 p2 obj1 obj2 id Hp1 Hp2 Hid1 Hid2 Hne.
    exists (Circuit.make (Circuit.name_ c)
              (<[id := p1]> (Circuit.components_ c)) (Circuit.nodes_ c)),
           (Circuit.make (Circuit.name_ c)
              (<[id := p2]> (<[id := p1]> (Circuit.components_ c)))
              (Circuit.nodes_ c)).
    unfold Circuit.addComponent. rewrite Hp1, Hp2. simpl.
    rewrite Hid1, Hid2. rewrite !decide_False by done.
    split; [reflexivity|]. split; [reflexivity|].
    unfold Circuit.getComponent. simpl.
    split; [apply lookup_insert_eq|]. split.
    + apply filter_key_unique; [apply NoDup_std_map_items_keys|].
      apply elem_of_std_map_items, lookup_insert_eq.
    + apply map_size_insert_Some. rewrite lookup_insert_eq. done.
  - intros p1 p2 obj1 obj2 id Hp1 Hp2 Hid1 Hid2 Hne.
    exists (Circuit.make (Circuit.name_ c) (Circuit.components_ c)
              (<[id := p1]> (Circuit.nodes_ c))),
           (Circuit.make (Circuit.name_ c) (Circuit.components_ c)
              (<[id := p2]> (<[id := p1]> (Circuit.nodes_ c)))).
    unfold Circuit.addNode. rewrite Hp1, Hp2. simpl.
    rewrite Hid1, Hid2. rewrite !decide_False by done.
    split; [reflexivity|]. split; [reflexivity|].
    unfold Circuit.getNode. simpl.
    split; [apply lookup_insert_eq|]. split.
    + apply filter_key_unique; [apply NoDup_std_map_items_keys|].
      apply elem_of_std_map_items, lookup_insert_eq.
    + apply map_size_insert_Some. rewrite lookup_insert_eq. done.
Qed.

(** The calls of the test build exactly this store and circuit. *)
Example rc_construction :
  let st0 :=
    mkStore
      (<[1 := Node.setVoltage 5%float (Node.new "VCC")]>
         (<[2 := Node.new "OUT"]>
            (<[3 := Node.setVoltage 0%float (Node.new "GND")]> ∅)))
      (<[10 := Component.setId "R1"
                 (Component.new (Component.IsResistor
                                   (Resistor.new 1000%float)))]>
         (<[11 := Component.setId "C1"
                    (Component.new (Component.IsCapacitor
                                      (Capacitor.new 1e-6%float)))]> ∅)) in
  (st ← connect 10 1 st0; st ← connect 10 2 st; st ← connect 11 2 st;
   st ← connect 11 3 st;
   c ← Circuit.addNode (Some 1) st (Circuit.new "Integration Test Circuit");
   c ← Circuit.addNode (Some 2) st c;
   c ← Circuit.addNode (Some 3) st c;
   c ← Circuit.addComponent (Some 10) st c;
   c ← Circuit.addComponent (Some 11) st c;
   Some (c, st)) = Some (rc_circuit, rc_store).
Proof. vm_compute. reflexivity. Qed.

Lemma add_tolerant_last_wins_witness :
  let st := set_component 12 (Component.new (Component.IsDiode
                                               (Diode.new 0.7%float)))
              (set_component 13
                 (Component.make "R1" []
                    (Component.IsResistor (Resistor.new 50%float)))
                 (set_node 4 (Node.new "")
                    (set_node 5 (Node.new "VCC") rc_store))) in
  Circuit.addComponent None st rc_circuit = Some rc_circuit ∧
  Circuit.addNode None st rc_circuit = Some rc_circuit ∧
  Circuit.addComponent (Some 12) st rc_circuit = Some rc_circuit ∧
  Circuit.addNode (Some 4) st rc_circuit = Some rc_circuit ∧
  (∃ c1 c2,
     Circuit.addComponent (Some 10) st rc_circuit = Some c1 ∧
     Circuit.addComponent (Some 13) st c1 = Some c2 ∧
     Circuit.getComponent "R1" c2 = Some 13 ∧
     filter (λ kv, kv.1 = "R1") (std_map_items (Circuit.components_ c2))
       = [("R1", 13)] ∧
     size (Circuit.components_ c2) = size (Circuit.components_ c1)) ∧
  (∃ c1 c2,
     Circuit.addNode (Some 1) st rc_circuit = Some c1 ∧
     Circuit.addNode (Some 5) st c1 = Some c2 ∧
     Circuit.getNode "VCC" c2 = Some 5 ∧
     filter (λ kv, kv.1 = "VCC") (std_map_items (Circuit.nodes_ c2))
       = [("VCC", 5)] ∧
     size (Circuit.nodes_ c2) = size (Circuit.nodes_ c1)).
Proof.
  intros st.
  destruct (add_tolerant_last_wins st rc_circuit)
    as (H1 & H2 & H3 & H4 & H5 & H6).
  split; [exact H1|]. split; [exact H2|].
  split; [eapply H3; reflexivity|].
  split; [eapply H4; reflexivity|].
  split.
  - eapply H5; [reflexivity | reflexivity | reflexivity | reflexivity | done].
  - eapply H6; [reflexivity | reflexivity | reflexivity | reflexivity | done].
Defined.

(** ** The stepping loop leaves the nodes alone *)

Lemma simulate_at_frame exp timestep component st st' :
  simulate_at exp timestep component st = Some st' →
  node_objs st' = node_objs st ∧
  ∀ q, q ≠ component → component_objs st' !! q = component_objs st !! q.
Proof.
  unfold simulate_at. intros H.
  destruct (component_objs st !! component) as [c|]; [|done]. simpl in H.
  destruct (Component.simulate exp (node_objs st) timestep c) as [c'|];
    [|done].
  simpl in H. injection H as <-. split; [reflexivity|].
  intros q Hq. simpl. by apply lookup_insert_ne.
Qed.

Lemma simulate_all_nodes exp timestep items st st' :
  Circuit.simulate_all exp timestep items st = Some st' →
  node_objs st' = node_objs st.
Proof.
  revert st. induction items as [|[id p] items IH]; intros st H; simpl in H.
  - by injection H as <-.
  - destruct (simulate_at exp timestep p st) as [st1|] eqn:H1; [|done].
    simpl in H. apply simulate_at_frame in H1 as [H1 _].
    rewrite (IH _ H). exact H1.
Qed.

Lemma simulate_loop_nodes exp fuel c duration timestep time calls st st'
    calls' :
  Circuit.simulate_loop exp fuel c duration timestep time calls st
    = Returned st' calls' →
  node_objs st' = node_objs st.
Proof.
  revert time calls st.
  induction fuel as [|fuel IH]; intros time calls st H; simpl in H.
  - destruct (time <? duration)%float; [done|]. by injection H as <- _.
  - destruct (time <? duration)%float; [|by injection H as <- _].
    destruct (Circuit.simulate_all exp timestep
                (std_map_items (Circuit.components_ c)) st) as [st1|] eqn:H1;
      [|done].
    apply simulate_all_nodes in H1. rewrite (IH _ _ _ H). exact H1.
Qed.

(** C1 (simulate does not write nodes): when [Circuit::simulate] returns,
    the node part of the store is what it was, so every node the circuit
    owns has the voltage it had before the call. *)
Theorem simulate_preserves_nodes (exp : float → float) (fuel : nat)
    (c : Circuit.t) (duration timestep : float) (st st' : Store)
    (calls : nat) :
  Circuit.simulate exp fuel c duration timestep st = Returned st' calls →
  node_objs st' = node_objs st ∧
  ∀ id p n, Circuit.getNode id c = Some p → node_objs st !! p = Some n →
    ∃ n', node_objs st' !! p = Some n' ∧
          Node.getVoltage n' = Node.getVoltage n.
Proof.
  intros H. apply simulate_loop_nodes in H. split; [exact H|].
  intros id p n _ Hn. exists n. by rewrite H.
Qed.

Lemma simulate_preserves_nodes_witness :
  ∃ st' calls,
    Circuit.simulate (λ x, x) 10 rc_circuit 3e-6%float 1e-6%float rc_store
      = Returned st' calls ∧
    calls = 6 ∧
    (Component.getCurrentValue <$> component_objs st' !! 10)
      = Some 0.005%float ∧
    node_objs st' = node_objs rc_store ∧
    ∀ id p n, Circuit.getNode id rc_circuit = Some p →
      node_objs rc_store !! p = Some n →
      ∃ n', node_objs st' !! p = Some n' ∧
            Node.getVoltage n' = Node.getVoltage n.
Proof.
  eexists _, _. split; [vm_compute; reflexivity|].
  split; [reflexivity|]. split; [vm_compute; reflexivity|].
  eapply (simulate_preserves_nodes (λ x, x) 10 rc_circuit 3e-6%float
            1e-6%float rc_store).
  vm_compute; reflexivity.
Defined.

(** ** Reset *)

Lemma setVoltage_idem v n :
  Node.setVoltage v (Node.setVoltage v n) = Node.setVoltage v n.
Proof. reflexivity. Qed.

(** One pass of [reset] over entries whose nodes are live: it answers, the
    components are untouched, and a node is rewritten with voltage 0 exactly
    when an entry points at it. *)
Lemma reset_all_spec (items : list (string * nat)) (st : Store) :
  (∀ p, p ∈ items.*2 → is_Some (node_objs st !! p)) →
  ∃ st', Circuit.reset_all items st = Some st' ∧
    component_objs st' = component_objs st ∧
    ∀ p, node_objs st' !! p =
           if decide (p ∈ items.*2)
           then Node.setVoltage 0%float <$> node_objs st !! p
           else node_objs st !! p.
Proof.
  revert st. induction items as [|[id q] items IH]; intros st Hlive.
  - exists st. split; [reflexivity|]. split; [reflexivity|].
    intros p. rewrite decide_False; [done|]. simpl. apply not_elem_of_nil.
  - cbn [Circuit.reset_all]. unfold setVoltage_at.
    destruct (Hlive q) as [n Hn]; [simpl; left|].
    rewrite Hn. cbn [mbind option_bind].
    destruct (IH (set_node q (Node.setVoltage 0%float n) st))
      as (st' & Hrun & Hcomp & Hnodes).
    { intros p Hp. simpl.
      destruct (decide (p = q)) as [->|Hpq].
      - rewrite lookup_insert_eq. by eexists.
      - rewrite lookup_insert_ne by done. apply Hlive. simpl. by right. }
    exists st'. split; [exact Hrun|]. split; [exact Hcomp|].
    intros p. rewrite Hnodes.
    change (((id, q) :: items).*2) with (q :: items.*2).
    unfold set_node. cbn [node_objs].
    destruct (decide (p = q)) as [->|Hpq].
    + rewrite lookup_insert_eq, Hn.
      destruct (decide (q ∈ q :: items.*2)) as [_|Hnin];
        [|destruct Hnin; left].
      destruct (decide (q ∈ items.*2)); reflexivity.
    + rewrite lookup_insert_ne by done.
      destruct (decide (p ∈ items.*2)) as [Hin|Hnin];
        destruct (decide (p ∈ q :: items.*2)) as [Hin'|Hnin']; try done.
      * destruct Hnin'. by right.
      * apply elem_of_cons in Hin' as [?|?]; done.
Qed.

(** C8 (reset asymmetry): [Circuit::reset] on a circuit whose nodes are
    live answers; afterwards every owned node has voltage 0.0 (its id and
    back-references are as before), and the component part of the store is
    what it was, so every component's [getCurrentValue()] is unchanged. *)
Theorem reset_zeroes_nodes_keeps_components (c : Circuit.t) (st : Store) :
  (∀ id p, Circuit.getNode id c = Some p → is_Some (node_objs st !! p)) →
  ∃ st', Circuit.reset c st = Some st' ∧
    (∀ id p, Circuit.getNode id c = Some p →
       ∃ n n', node_objs st !! p = Some n ∧
               node_objs st' !! p = Some n' ∧
               Node.getVoltage n' = 0%float ∧
               n' = Node.setVoltage 0%float n) ∧
    component_objs st' = component_objs st ∧
    (∀ id p, Circuit.getComponent id c = Some p →
       Component.getCurrentValue <$> component_objs st' !! p
       = Component.getCurrentValue <$> component_objs st !! p).
Proof.
  intros Hlive. unfold Circuit.reset.
  destruct (reset_all_spec (std_map_items (Circuit.nodes_ c)) st)
    as (st' & Hrun & Hcomp & Hnodes).
  { intros p Hp. apply list_elem_of_fmap in Hp as ([id p'] & -> & Hin).
    apply elem_of_std_map_items in Hin. by apply (Hlive id). }
  exists st'. split; [exact Hrun|]. split; [|split].
  - intros id p Hp. destruct (Hlive id p Hp) as [n Hn].
    exists n, (Node.setVoltage 0%float n). split; [exact Hn|].
    split; [|done]. rewrite Hnodes, Hn. rewrite decide_True; [done|].
    apply list_elem_of_fmap. exists (id, p). split; [done|].
    by apply elem_of_std_map_items.
  - exact Hcomp.
  - intros id p _. by rewrite Hcomp.
Qed.

Lemma reset_zeroes_nodes_keeps_components_witness :
  ∃ st1 st2,
    simulate_at (λ x, x) 1e-6%float 10 rc_store = Some st1 ∧
    Circuit.reset rc_circuit st1 = Some st2 ∧
    (Node.getVoltage <$> node_objs st1 !! 1) = Some 5%float ∧
    (Node.getVoltage <$> node_objs st2 !! 1) = Some 0%float ∧
    (Node.getVoltage <$> node_objs st2 !! 2) = Some 0%float ∧
    (Node.getVoltage <$> node_objs st2 !! 3) = Some 0%float ∧
    (Component.getCurrentValue <$> component_objs st2 !! 10)
      = Some 0.005%float ∧
    component_objs st2 = component_objs st1.
Proof.
  destruct (simulate_at (λ x, x) 1e-6%float 10 rc_store) as [st1|] eqn:H1;
    [|vm_compute in H1; discriminate].
  destruct (reset_zeroes_nodes_keeps_components rc_circuit st1)
    as (st2 & Hrun & Hnodes & Hcomp & Hcur).
  { intros id p Hp.
    apply simulate_at_frame in H1 as [-> _].
    unfold Circuit.getNode, rc_circuit in Hp. simpl in Hp.
    repeat (apply lookup_insert_Some in Hp as [[_ <-]|[_ Hp]];
            [vm_compute; by eexists|]).
    by rewrite lookup_empty in Hp. }
  exists st1, st2. split; [reflexivity|]. split; [exact Hrun|].
  pose proof (simulate_at_frame _ _ _ _ _ H1) as [Hfr _].
  assert (Hv : ∀ id p, Circuit.getNode id rc_circuit = Some p →
            (Node.getVoltage <$> node_objs st2 !! p) = Some 0%float).
  { intros id p Hp. destruct (Hnodes id p Hp) as (n & n' & _ & -> & Hz & _).
    simpl. by rewrite Hz. }
  split; [by rewrite Hfr|].
  split; [by apply (Hv "VCC")|].
  split; [by apply (Hv "OUT")|].
  split; [by apply (Hv "GND")|].
  split; [|exact Hcomp].
  rewrite Hcomp. vm_compute in H1. injection H1 as <-. vm_compute.
  reflexivity.
Defined.

(** ** Plugin lifecycle *)

(** C5, as stated, fails: after a first [initialize()] that failed, the
    second call runs [doInitialize] again, may answer differently and
    changes the object; and after [cleanup()] a further [initialize()] makes
    the plugin initialized a second time. *)
Lemma initialize_idempotent_counterexample :
  let first := @BasePlugin.initialize nat FlakyPlugin.subclass
                 FlakyPlugin.new in
  let second := @BasePlugin.initialize nat FlakyPlugin.subclass first.2 in
  first.1 = false ∧ second.1 = true ∧ second.2 ≠ first.2 ∧
  ¬ (∀ (D : Type) (S : BasePlugin.Subclass D) (p : BasePlugin.t D),
       BasePlugin.initialize (BasePlugin.initialize p).2
       = ((BasePlugin.initialize p).1, (BasePlugin.initialize p).2)) ∧
  let p1 := (BasePlugin.initialize ExamplePlugin.new).2 in
  let p2 := BasePlugin.cleanup p1 in
  let p3 := (BasePlugin.initialize p2).2 in
  BasePlugin.initialized_ p1 = true ∧ BasePlugin.initialized_ p2 = false ∧
  BasePlugin.initialized_ p3 = true.
Proof.
  split; [reflexivity|]. split; [reflexivity|]. split; [discriminate|].
  split; [|done].
  intros H. specialize (H nat FlakyPlugin.subclass FlakyPlugin.new).
  discriminate H.
Qed.

(** C5 (amended): [initialize()] leaves [initialized_] equal to what it
    answers.  Once it has answered true, a further call before [cleanup()]
    answers true and leaves the object as it is; after it answered false,
    the next call runs [doInitialize] again. *)
Theorem initialize_idempotent_once_succeeded (D : Type)
    (S : BasePlugin.Subclass D) (p p' : BasePlugin.t D) (r : bool) :
  BasePlugin.initialize p = (r, p') →
  BasePlugin.initialized_ p' = r ∧
  BasePlugin.initialize p' =
    if r then (true, p')
    else let (ok, q) := BasePlugin.doInitialize p' in
         (ok, BasePlugin.set_initialized ok q).
Proof.
  unfold BasePlugin.initialize. intros H.
  destruct (BasePlugin.initialized_ p) eqn:Hinit; simpl in H.
  - injection H as <- <-. rewrite Hinit. done.
  - destruct (BasePlugin.doInitialize p) as [ok q]. injection H as <- <-.
    simpl. destruct ok; done.
Qed.

Lemma initialize_idempotent_once_succeeded_witness :
  ∃ p', BasePlugin.initialize ExamplePlugin.new = (true, p') ∧
        BasePlugin.initialized_ p' = true ∧
        BasePlugin.initialize p' = (true, p').
Proof.
  exists (BasePlugin.set_initialized true ExamplePlugin.new).
  split; [reflexivity|].
  exact (initialize_idempotent_once_succeeded unit ExamplePlugin.subclass
           ExamplePlugin.new
           (BasePlugin.set_initialized true ExamplePlugin.new) true eq_refl).
Defined.

(** ** Loading a plugin *)

Lemma close_after_open handle w :
  PluginManager.CLOSE_LIBRARY handle (PluginManager.library_opened handle w)
  = w.
Proof.
  destruct w as [m l].
  unfold PluginManager.CLOSE_LIBRARY, PluginManager.library_opened. simpl.
  by rewrite decide_True.
Qed.

(** C9 (failed load, fourth mode).  The instance exists and its
    [initialize()] answers false: [loadPlugin] closes the library while its
    local [shared_ptr] still owns the instance, so the instance is destroyed
    after the close.  When the process holds the library through no earlier
    [LOAD_LIBRARY], the destructor runs from an unloaded library and the
    call has no defined result: it does not answer false.  Only when the
    library stays loaded does the call answer false with the process as it
    was.  ([unloadPlugin] erases the instance first and closes the library
    second.) *)
Theorem loadPlugin_initialize_failure (ld : Loader) (plugin_path : string)
    (w : PluginManager.Process) (handle : nat)
    (createPlugin : unit → option IPlugin) (plugin : IPlugin) :
  LOAD_LIBRARY ld plugin_path = Some handle →
  GET_PROC_ADDRESS ld handle "createPlugin" = Some createPlugin →
  createPlugin () = Some plugin →
  (IPlugin_initialize plugin).1 = false →
  (handle ∉ PluginManager.open_libraries w →
   PluginManager.loadPlugin ld plugin_path w = None) ∧
  (handle ∈ PluginManager.open_libraries w →
   PluginManager.loadPlugin ld plugin_path w = Some (false, w)).
Proof.
  intros Hopen Hsym Hnew Hinit.
  unfold PluginManager.loadPlugin. rewrite Hopen, Hsym, Hnew.
  destruct (IPlugin_initialize plugin) as [ok plugin'].
  simpl in Hinit. subst ok. cbn [negb]. cbv zeta.
  rewrite close_after_open.
  split; intros Hheld; [by rewrite decide_False|by rewrite decide_True].
Qed.

(** [loadPlugin] answers true in every other case. *)
Lemma loadPlugin_false_is_failure ld plugin_path w :
  (∀ w', PluginManager.loadPlugin ld plugin_path w ≠ Some (true, w')) →
  load_failure ld plugin_path.
Proof.
  unfold PluginManager.loadPlugin.
  destruct (LOAD_LIBRARY ld plugin_path) as [h|] eqn:Hopen;
    [|intros _; by apply cannot_open].
  destruct (GET_PROC_ADDRESS ld h "createPlugin") as [f|] eqn:Hsym;
    [|intros _; by eapply no_factory_symbol].
  destruct (f ()) as [plugin|] eqn:Hnew;
    [|intros _; by eapply no_instance].
  destruct (IPlugin_initialize plugin) as [ok plugin'] eqn:Hinit.
  destruct ok; simpl.
  - intros H. by destruct (H _ eq_refl).
  - intros _. eapply initialize_failed; [done..|]. by rewrite Hinit.
Qed.

Example load_example_succeeds :
  PluginManager.loadPlugin test_loader "plugins/libexample.so" fresh_process
    = Some (true, example_loaded) ∧
  PluginManager.getLoadedPlugins (PluginManager.instance example_loaded)
    = ["ExamplePlugin"] ∧
  PluginManager.plugin_handles_ (PluginManager.instance example_loaded)
    !! "ExamplePlugin" = Some 1 ∧
  PluginManager.open_libraries example_loaded = [1].
Proof. vm_compute. done. Qed.

Lemma loadPlugin_initialize_failure_witness :
  PluginManager.loadPlugin test_loader "plugins/libbroken.so" example_loaded
    = None ∧
  PluginManager.loadPlugin test_loader "plugins/libbroken.so"
    (PluginManager.library_opened 4 example_loaded)
    = Some (false, PluginManager.library_opened 4 example_loaded).
Proof.
  split.
  - destruct (loadPlugin_initialize_failure test_loader
                "plugins/libbroken.so" example_loaded 4
                BrokenPlugin.createPlugin
                (@BasePlugin.as_IPlugin unit BrokenPlugin.subclass
                   (BasePlugin.new "Broken" "0.0" "" tt)))
      as [Hundefined _]; [reflexivity..|].
    apply Hundefined. change (4 ∉ [1]).
    apply not_elem_of_cons. split; [done|apply not_elem_of_nil].
  - destruct (loadPlugin_initialize_failure test_loader
                "plugins/libbroken.so"
                (PluginManager.library_opened 4 example_loaded) 4
                BrokenPlugin.createPlugin
                (@BasePlugin.as_IPlugin unit BrokenPlugin.subclass
                   (BasePlugin.new "Broken" "0.0" "" tt)))
      as [_ Hheld]; [reflexivity..|].
    apply Hheld. apply list_elem_of_here.
Defined.

(** ** Plugin discovery *)

Lemma discover_loop_listed os entries discovered :
  PluginManager.discover_loop os entries discovered
  = discovered ++ (entry_path <$> filter (matches os) (listed entries)).
Proof.
  revert discovered.
  induction entries as [|[entry|] rest IH]; intros discovered; simpl.
  - by rewrite app_nil_r.
  - destruct (entry_is_regular_file entry) as [[|]|] eqn:Hreg; simpl.
    + rewrite filter_cons.
      destruct (String.index 0 (LIBRARY_EXTENSION os)
                  (entry_filename entry)) as [i|] eqn:Hidx.
      * rewrite decide_True by (split; [exact Hreg | by rewrite Hidx]).
        rewrite IH. simpl. by rewrite <- app_assoc.
      * rewrite decide_False by (intros [_ ?]; done). apply IH.
    + rewrite filter_cons.
      rewrite decide_False by (intros [? _]; congruence). apply IH.
    + by rewrite app_nil_r.
  - by rewrite app_nil_r.
Qed.

Lemma ends_with_index suffix s :
  suffix ≠ "" → ends_with suffix s = true → String.index 0 suffix s ≠ None.
Proof.
  intros Hne Hend Hidx. unfold ends_with in Hend.
  apply bool_decide_eq_true in Hend.
  apply (String.index_correct3 0
           (String.length s - String.length suffix) suffix s);
    [done | done | lia | done].
Qed.

Lemma LIBRARY_EXTENSION_nonempty os : LIBRARY_EXTENSION os ≠ "".
Proof. by destruct os. Qed.

(** C6, as stated, fails: a listing that throws after the first entry gives
    a result that is not empty, and a regular file whose name holds the
    extension elsewhere than at the end is returned. *)
Lemma discoverPlugins_counterexample :
  PluginManager.discoverPlugins Posix
    (plugins_dir [regular_file "libexample.so"; FsError]) "plugins/"
  = ["plugins/libexample.so"] ∧
  PluginManager.discoverPlugins Posix
    (plugins_dir [regular_file "notes.so.txt"]) "plugins/"
  = ["plugins/notes.so.txt"] ∧
  ends_with (LIBRARY_EXTENSION Posix) "notes.so.txt" = false.
Proof. vm_compute. done. Qed.

(** C6 (amended): [discoverPlugins] always answers a list.  The list is
    empty when the directory does not exist, is not a directory, or a file
    system call throws before the listing starts.  Otherwise it holds, in
    listing order, paths of entries listed before the first throw: every
    regular file among them whose name ends with the platform's library
    extension is returned, and every returned path is of a regular file
    whose name holds the extension; what was found before a throw is kept. *)
Theorem discoverPlugins_tolerant (os : Platform) (fs : FileSystem)
    (directory : string) :
  (fs_exists fs directory ≠ FsOk true →
     PluginManager.discoverPlugins os fs directory = []) ∧
  (fs_is_directory fs directory ≠ FsOk true →
     PluginManager.discoverPlugins os fs directory = []) ∧
  (fs_directory_iterator fs directory = FsError →
     PluginManager.discoverPlugins os fs directory = []) ∧
  (∀ entries,
     fs_exists fs directory = FsOk true →
     fs_is_directory fs directory = FsOk true →
     fs_directory_iterator fs directory = FsOk entries →
     let found := PluginManager.discoverPlugins os fs directory in
     (∀ e, e ∈ listed entries →
        entry_is_regular_file e = FsOk true →
        ends_with (LIBRARY_EXTENSION os) (entry_filename e) = true →
        entry_path e ∈ found) ∧
     (∀ path, path ∈ found →
        ∃ e, e ∈ listed entries ∧ entry_path e = path ∧
             entry_is_regular_file e = FsOk true ∧
             String.index 0 (LIBRARY_EXTENSION os) (entry_filename e)
               ≠ None) ∧
     found `sublist_of` (entry_path <$> listed entries)).
Proof.
  unfold PluginManager.discoverPlugins.
  split; [|split; [|split]].
  - intros H. by destruct (fs_exists fs directory) as [[|]|].
  - intros H. destruct (fs_exists fs directory) as [[|]|]; [|done..].
    by destruct (fs_is_directory fs directory) as [[|]|].
  - intros ->. destruct (fs_exists fs directory) as [[|]|]; [|done..].
    by destruct (fs_is_directory fs directory) as [[|]|].
  - intros entries -> -> ->. rewrite discover_loop_listed. simpl.
    split; [|split].
    + intros e Hin Hreg Hend. apply list_elem_of_fmap. exists e.
      split; [done|]. apply list_elem_of_filter. split; [|done].
      split; [done|].
      by apply ends_with_index; [apply LIBRARY_EXTENSION_nonempty|].
    + intros path Hin. apply list_elem_of_fmap in Hin as (e & -> & Hin).
      apply list_elem_of_filter in Hin as [[Hreg Hidx] Hin]. by exists e.
    + apply fmap_sublist, sublist_filter.
Qed.

Lemma discoverPlugins_tolerant_witness :
  PluginManager.discoverPlugins Posix (plugins_dir []) "nonexistent" = [] ∧
  "plugins/libexample.so" ∈
    PluginManager.discoverPlugins Posix
      (plugins_dir [regular_file "README.md"; regular_file "libexample.so";
                    FsError; regular_file "libunseen.so"]) "plugins/".
Proof.
  split.
  - destruct (discoverPlugins_tolerant Posix (plugins_dir [])
                "nonexistent") as (Hmissing & _).
    apply Hmissing. intros H. vm_compute in H. discriminate H.
  - destruct (discoverPlugins_tolerant Posix
                (plugins_dir [regular_file "README.md";
                              regular_file "libexample.so";
                              FsError; regular_file "libunseen.so"])
                "plugins/") as (_ & _ & _ & H).
    destruct (H _ eq_refl eq_refl eq_refl) as (Hcomplete & _ & _).
    apply (Hcomplete (mkEntry "plugins/libexample.so" "libexample.so"
                        (FsOk true))); [|reflexivity|reflexivity].
    simpl. apply list_elem_of_further, list_elem_of_here.
Defined.

(** ** binary64 facts used by the stepping loop *)

Section SpecFloatSign.
Variables prec emax : Z.

Lemma shr_1_nonneg r : (0 <= shr_m r)%Z → (0 <= shr_m (shr_1 r))%Z.
Proof.
  destruct r as [m rb sb]. simpl.
  destruct m as [|p|p]; [done| |lia].
  intros _. destruct p; simpl; lia.
Qed.

Lemma iter_pos_shr_1_nonneg p r :
  (0 <= shr_m r)%Z → (0 <= shr_m (SpecFloat.iter_pos shr_1 p r))%Z.
Proof.
  revert r. induction p as [p IH|p IH|]; intros r Hr; simpl.
  - apply IH, IH, shr_1_nonneg, Hr.
  - apply IH, IH, Hr.
  - apply shr_1_nonneg, Hr.
Qed.

Lemma shr_fexp_nonneg m e l :
  (0 <= m)%Z → (0 <= shr_m (shr_fexp prec emax m e l).1)%Z.
Proof.
  intros Hm. unfold shr_fexp, shr.
  assert (Hrec : (0 <= shr_m (shr_record_of_loc m l))%Z).
  { destruct l as [|[]]; exact Hm. }
  destruct (fexp prec emax (Zdigits2 m + e) - e)%Z; simpl;
    [exact Hrec | | exact Hrec].
  by apply iter_pos_shr_1_nonneg.
Qed.

Lemma round_nearest_even_nonneg m l :
  (0 <= m)%Z → (0 <= round_nearest_even m l)%Z.
Proof.
  intros Hm. unfold round_nearest_even.
  destruct l as [|[]]; [done| |done|lia].
  destruct (Z.even m); lia.
Qed.

Lemma binary_round_aux_sign s m e l :
  (0 <= m)%Z → has_sign s (binary_round_aux prec emax s m e l).
Proof.
  intros Hm. unfold binary_round_aux.
  pose proof (shr_fexp_nonneg m e l Hm) as H1.
  destruct (shr_fexp prec emax m e l) as [r1 e1]. simpl in H1.
  pose proof (shr_fexp_nonneg _ e1 loc_Exact
                (round_nearest_even_nonneg _ (loc_of_shr_record r1) H1))
    as H2.
  destruct (shr_fexp prec emax
              (round_nearest_even (shr_m r1) (loc_of_shr_record r1)) e1
              loc_Exact) as [r2 e2].
  simpl in H2. destruct (shr_m r2) as [|p|p]; [done| |lia].
  by destruct (e2 <=? emax - prec)%Z.
Qed.

Lemma binary_round_sign s m e :
  has_sign s (binary_round prec emax s m e).
Proof.
  unfold binary_round.
  destruct (shl_align m e _) as [mz ez].
  by apply binary_round_aux_sign.
Qed.

Lemma has_sign_nonpos x : has_sign true x → nonpos x.
Proof. by destruct x. Qed.

Lemma nonpos_SFleb x : SFleb x (S754_zero false) = true ↔ nonpos x.
Proof.
  destruct x as [s|[]| |[] m e]; simpl; unfold SFleb; simpl; split; done.
Qed.

(** The sum of two values that are not above zero is not above zero. *)
Lemma SFadd_nonpos x y :
  nonpos x → nonpos y → nonpos (SFadd prec emax x y).
Proof.
  destruct x as [sx|sx| |sx mx ex], y as [sy|sy| |sy my ey]; simpl;
    try done.
  - intros _ _. by destruct sx, sy.
  - by intros -> ->.
  - intros -> ->. simpl. apply has_sign_nonpos, binary_round_sign.
Qed.

(** A value not above zero is below every value above zero. *)
Lemma nonpos_SFltb x d :
  nonpos x → SFltb (S754_zero false) d = true → SFltb x d = true.
Proof.
  destruct d as [sd|[]| |[] md ed]; unfold SFltb; simpl; try done;
    destruct x as [sx|sx| |sx mx ex]; simpl; try done;
    intros ->; done.
Qed.
End SpecFloatSign.

Lemma float_add_nonpos (t ts : float) :
  (t <=? 0)%float = true → (ts <=? 0)%float = true →
  (t + ts <=? 0)%float = true.
Proof.
  rewrite !leb_spec, add_spec.
  change (Prim2SF 0%float) with (S754_zero false).
  rewrite !nonpos_SFleb. apply SFadd_nonpos.
Qed.

Lemma float_nonpos_lt_pos (t d : float) :
  (t <=? 0)%float = true → (0 <? d)%float = true → (t <? d)%float = true.
Proof.
  rewrite leb_spec, !ltb_spec.
  change (Prim2SF 0%float) with (S754_zero false).
  rewrite nonpos_SFleb. apply nonpos_SFltb.
Qed.

(** ** Absorption: adding the smallest positive double *)

(** The number of binary digits of a mantissa bounds it. *)
Lemma digits2_pos_size p : digits2_pos p = Pos.size p.
Proof. induction p; simpl; congruence. Qed.

Lemma digits2_pos_le_53 p :
  (Zpos (digits2_pos p) <= 53)%Z ↔ (Zpos p < 2 ^ 53)%Z.
Proof.
  rewrite digits2_pos_size. split; intros H.
  - pose proof (Pos.size_gt p) as Hgt.
    apply Pos2Z.pos_lt_pos in Hgt. rewrite Pos2Z.inj_pow in Hgt.
    eapply Z.lt_le_trans; [exact Hgt|].
    apply Z.pow_le_mono_r; lia.
  - pose proof (Pos.size_le p) as Hle.
    apply Pos2Z.pos_le_pos in Hle. rewrite Pos2Z.inj_pow in Hle.
    assert (Hlt : (2 ^ Zpos (Pos.size p) < 2 ^ 54)%Z).
    { change (2 ^ 54)%Z with (2 * 2 ^ 53)%Z. lia. }
    apply Z.pow_lt_mono_r_iff in Hlt; lia.
Qed.

Lemma fexp_subnormal d :
  (d <= 53)%Z → fexp prec emax (d + -1074) = (-1074)%Z.
Proof. intros Hd. unfold fexp, emin, prec, emax. lia. Qed.

(** Below [2^53] units of [2^-1074] the addition of one unit is exact. *)
Lemma SFadd_least_positive m :
  (Zpos (digits2_pos (m + 1)) <= 53)%Z →
  SF64add (S754_finite false m (-1074)) (S754_finite false 1 (-1074))
  = S754_finite false (m + 1) (-1074).
Proof.
  intros Hd. unfold SF64add, SFadd. cbn [Z.min Z.compare Pos.compare].
  change (Z.min (-1074) (-1074)) with (-1074)%Z.
  unfold shl_align at 1 2. rewrite Z.sub_diag. cbn [fst cond_Zopp].
  change (Z.pos m + 1)%Z with (Z.pos (m + 1)).
  unfold binary_normalize, binary_round.
  rewrite (fexp_subnormal _ Hd).
  unfold shl_align. rewrite Z.sub_diag.
  unfold binary_round_aux, shr_fexp. cbn [Zdigits2 shr_record_of_loc].
  rewrite (fexp_subnormal _ Hd). rewrite Z.sub_diag. cbn [shr shr_m].
  cbn [loc_of_shr_record round_nearest_even Zdigits2].
  rewrite (fexp_subnormal _ Hd). rewrite Z.sub_diag. cbn [shr shr_m].
  reflexivity.
Qed.

Lemma valid_subnormal_mantissa m :
  valid_binary (S754_finite false m (-1074)) = true →
  (Zpos m < 2 ^ 53)%Z.
Proof.
  intros Hv. apply digits2_pos_le_53.
  unfold valid_binary, SpecFloat.valid_binary, bounded, canonical_mantissa
    in Hv.
  apply andb_prop in Hv as [Hcanon _]. apply Z.eqb_eq in Hcanon.
  unfold fexp, emin, prec, emax in Hcanon. lia.
Qed.

(** One more addition stays among these values: it is exact up to
    [stall_point], and at [stall_point] the sum rounds back to it. *)
Lemma below_stall_step t :
  below_stall t → below_stall (t + least_positive)%float.
Proof.
  intros [Hz | [[m Hm] | ->]].
  - assert (t = 0%float) as -> by (apply Prim2SF_inj; by rewrite Hz).
    right. left. by exists 1%positive.
  - pose proof (Prim2SF_valid t) as Hv. rewrite Hm in Hv.
    apply valid_subnormal_mantissa in Hv.
    destruct (Z_lt_dec (Zpos m + 1) (2 ^ 53)) as [Hlt|Hge].
    + right. left. exists (m + 1)%positive. rewrite add_spec, Hm.
      apply SFadd_least_positive, digits2_pos_le_53. lia.
    + assert (m = 9007199254740991%positive) as -> by lia.
      assert (t = 0x1.fffffffffffffp-1022%float) as ->
        by (apply Prim2SF_inj; by rewrite Hm).
      right. right. reflexivity.
  - right. right. reflexivity.
Qed.

Lemma below_stall_lt_one t : below_stall t → (t <? 1)%float = true.
Proof.
  intros [Hz | [[m Hm] | ->]]; [| |reflexivity];
    rewrite ltb_spec; [rewrite Hz|rewrite Hm]; reflexivity.
Qed.

Lemma time_after_below_stall n : below_stall (time_after least_positive n).
Proof.
  induction n as [|n IH]; [by left|]. by apply below_stall_step in IH.
Qed.

(** ** Termination of the stepping loop *)

Lemma terminal_voltage_live (mem : gmap nat Node.t) (nodes_ : list nat) i :
  i < length nodes_ →
  (∀ n, n ∈ nodes_ → is_Some (mem !! n)) →
  is_Some (terminal_voltage mem nodes_ i).
Proof.
  intros Hi Hlive. unfold terminal_voltage.
  destruct (lookup_lt_is_Some_2 nodes_ i Hi) as [p Hp]. rewrite Hp. simpl.
  destruct (Hlive p) as [n Hn]; [by eapply list_elem_of_lookup_2|].
  rewrite Hn. by eexists.
Qed.

(** With live terminals [simulate] answers, and keeps id and terminals. *)
Lemma Component_simulate_total exp (mem : gmap nat Node.t) dt c :
  (∀ n, n ∈ Component.nodes_ c → is_Some (mem !! n)) →
  ∃ c', Component.simulate exp mem dt c = Some c' ∧
        Component.nodes_ c' = Component.nodes_ c ∧
        Component.id_ c' = Component.id_ c.
Proof.
  intros Hlive. destruct c as [id nodes d]. simpl in Hlive.
  unfold Component.simulate. simpl.
  destruct d as [r|k|l|d]; simpl;
    unfold Resistor.simulate, Capacitor.simulate, Inductor.simulate,
      Diode.simulate;
    (destruct (decide (2 ≤ length nodes)) as [Hlen|_];
     [ destruct (terminal_voltage_live mem nodes 0) as [v0 ->];
         [lia | done |];
       destruct (terminal_voltage_live mem nodes 1) as [v1 ->];
         [lia | done |]
     | ]); simpl; try (by eexists).
  destruct (Diode.forward_voltage_ d <? v0 - v1)%float; by eexists.
Qed.

Lemma simulate_at_total exp dt p st :
  is_Some (component_objs st !! p) → terminals_live st →
  ∃ st', simulate_at exp dt p st = Some st' ∧ terminals_live st' ∧
    ∀ q, is_Some (component_objs st !! q) →
         is_Some (component_objs st' !! q).
Proof.
  intros [c Hc] Hlive. unfold simulate_at. rewrite Hc. simpl.
  destruct (Component_simulate_total exp (node_objs st) dt c)
    as (c' & -> & Hnodes & _); [intros n Hn; by apply (Hlive p c)|].
  simpl. eexists. split; [reflexivity|]. split.
  - intros q comp n Hq Hn. simpl in *.
    destruct (decide (q = p)) as [->|Hne].
    + rewrite lookup_insert_eq in Hq. injection Hq as <-.
      rewrite Hnodes in Hn. by apply (Hlive p c).
    + rewrite lookup_insert_ne in Hq by done. by apply (Hlive q comp).
  - intros q Hq. simpl. destruct (decide (q = p)) as [->|Hne].
    + rewrite lookup_insert_eq. by eexists.
    + by rewrite lookup_insert_ne.
Qed.

Lemma simulate_all_total exp dt (items : list (string * nat)) st :
  (∀ p, p ∈ items.*2 → is_Some (component_objs st !! p)) →
  terminals_live st →
  ∃ st', Circuit.simulate_all exp dt items st = Some st' ∧
    terminals_live st' ∧
    ∀ q, is_Some (component_objs st !! q) →
         is_Some (component_objs st' !! q).
Proof.
  revert st. induction items as [|[id p] items IH]; intros st Hown Hlive.
  - exists st. done.
  - cbn [Circuit.simulate_all].
    destruct (simulate_at_total exp dt p st) as (st1 & -> & Hlive1 & Hdom1);
      [apply Hown; simpl; left | done |].
    cbn [mbind option_bind].
    destruct (IH st1) as (st' & Hrun & Hlive' & Hdom'); [|done|].
    { intros q Hq. apply Hdom1, Hown. simpl. by right. }
    exists st'. split; [done|]. split; [done|]. intros q Hq. auto.
Qed.

Lemma store_closed_items c st :
  store_closed c st →
  (∀ p, p ∈ (std_map_items (Circuit.components_ c)).*2 →
        is_Some (component_objs st !! p)) ∧ terminals_live st.
Proof.
  intros (_ & Hcomp & Hterm). split; [|exact Hterm].
  intros p Hp. apply list_elem_of_fmap in Hp as ([id p'] & -> & Hin).
  apply elem_of_std_map_items in Hin. by apply (Hcomp id).
Qed.

(** While [time] is not above zero and [timestep] is not either, the loop
    condition holds at every iteration: the loop does not return. *)
Lemma simulate_loop_stuck exp fuel c duration timestep time calls st :
  (0 <? duration)%float = true →
  (timestep <=? 0)%float = true →
  (time <=? 0)%float = true →
  (∀ st' calls',
     Circuit.simulate_loop exp fuel c duration timestep time calls st
     ≠ Returned st' calls') ∧
  ((∀ p, p ∈ (std_map_items (Circuit.components_ c)).*2 →
         is_Some (component_objs st !! p)) →
   terminals_live st →
   Circuit.simulate_loop exp fuel c duration timestep time calls st
   = OutOfFuel).
Proof.
  intros Hdur Hstep. revert time calls st.
  induction fuel as [|fuel IH]; intros time calls st Htime;
    cbn [Circuit.simulate_loop];
    rewrite (float_nonpos_lt_pos _ _ Htime Hdur); [done|].
  pose proof (float_add_nonpos _ _ Htime Hstep) as Hnext.
  split.
  - intros st' calls'.
    destruct (Circuit.simulate_all exp timestep
                (std_map_items (Circuit.components_ c)) st) as [st1|];
      [|done].
    apply (IH _ _ _ Hnext).
  - intros Hown Hlive.
    destruct (simulate_all_total exp timestep _ st Hown Hlive)
      as (st1 & -> & Hlive1 & Hdom1).
    apply (IH _ _ _ Hnext); [|done]. intros p Hp. apply Hdom1, Hown, Hp.
Qed.

(** The loop started at the [k]-th partial sum returns after [n] more
    passes when the next [n] partial sums are below [duration] and the one
    after them is not. *)
Lemma simulate_loop_returns exp c duration timestep n :
  ∀ k fuel calls st,
    (∀ p, p ∈ (std_map_items (Circuit.components_ c)).*2 →
          is_Some (component_objs st !! p)) →
    terminals_live st →
    n ≤ fuel →
    (∀ j, j < n → (time_after timestep (k + j) <? duration)%float = true) →
    (time_after timestep (k + n) <? duration)%float = false →
    ∃ st', Circuit.simulate_loop exp fuel c duration timestep
             (time_after timestep k) calls st
           = Returned st'
               (calls + n * length (std_map_items (Circuit.components_ c))).
Proof.
  induction n as [|n IH]; intros k fuel calls st Hown Hlive Hfuel Hbelow
    Hreached.
  - exists st. rewrite Nat.add_0_r in Hreached.
    destruct fuel; cbn [Circuit.simulate_loop]; rewrite Hreached;
      f_equal; lia.
  - destruct fuel as [|fuel]; [lia|]. cbn [Circuit.simulate_loop].
    pose proof (Hbelow 0 ltac:(lia)) as Hnow.
    rewrite Nat.add_0_r in Hnow. rewrite Hnow.
    destruct (simulate_all_total exp timestep _ st Hown Hlive)
      as (st1 & -> & Hlive1 & Hdom1).
    change (time_after timestep k + timestep)%float
      with (time_after timestep (S k)).
    destruct (IH (S k) fuel
                (calls + length (std_map_items (Circuit.components_ c))) st1)
      as [st' Hrun].
    + intros p Hp. apply Hdom1, Hown, Hp.
    + done.
    + lia.
    + intros j Hj. replace (S k + j) with (k + S j) by lia.
      apply Hbelow. lia.
    + replace (S k + n) with (k + S n) by lia. exact Hreached.
    + exists st'. rewrite Hrun. f_equal. lia.
Qed.

(** The loop never leaves when every partial sum is below [duration]. *)
Lemma simulate_loop_diverges exp c duration timestep fuel :
  ∀ k calls st,
    (∀ p, p ∈ (std_map_items (Circuit.components_ c)).*2 →
          is_Some (component_objs st !! p)) →
    terminals_live st →
    (∀ j, (time_after timestep (k + j) <? duration)%float = true) →
    Circuit.simulate_loop exp fuel c duration timestep
      (time_after timestep k) calls st = OutOfFuel.
Proof.
  induction fuel as [|fuel IH]; intros k calls st Hown Hlive Hbelow;
    cbn [Circuit.simulate_loop];
    pose proof (Hbelow 0) as Hnow; rewrite Nat.add_0_r in Hnow;
    rewrite Hnow; [done|].
  destruct (simulate_all_total exp timestep _ st Hown Hlive)
    as (st1 & -> & Hlive1 & Hdom1).
  change (time_after timestep k + timestep)%float
    with (time_after timestep (S k)).
  apply IH; [|done|].
  - intros p Hp. apply Hdom1, Hown, Hp.
  - intros j. replace (S k + j) with (k + S j) by lia. apply Hbelow.
Qed.

Lemma rc_store_closed : store_closed rc_circuit rc_store.
Proof.
  split; [|split].
  - intros id p Hp. unfold rc_circuit in Hp. simpl in Hp.
    repeat (apply lookup_insert_Some in Hp as [[_ <-]|[_ Hp]];
            [vm_compute; by eexists|]).
    by rewrite lookup_empty in Hp.
  - intros id p Hp. unfold rc_circuit in Hp. simpl in Hp.
    repeat (apply lookup_insert_Some in Hp as [[_ <-]|[_ Hp]];
            [vm_compute; by eexists|]).
    by rewrite lookup_empty in Hp.
  - intros p comp n Hp Hn. unfold rc_store in Hp. simpl in Hp.
    repeat (apply lookup_insert_Some in Hp as [[_ <-]|[_ Hp]];
            [simpl in Hn;
             repeat (apply elem_of_cons in Hn as [->|Hn];
                     [vm_compute; by eexists|]);
             by apply elem_of_nil in Hn|]).
    by rewrite lookup_empty in Hp.
Qed.

(** C10, as stated, fails: with a NaN duration the loop condition is false
    at once, so the call returns although neither [duration <= 0] nor
    [timestep > 0] holds; with duration 1.0 and a NaN timestep it returns
    after one pass although [timestep > 0] does not hold; and with duration
    1.0 and the smallest positive double as timestep it never returns
    although [timestep > 0] holds, because [time] stalls at [2^-1021]. *)
Lemma simulate_termination_counterexample :
  (Circuit.simulate (λ x, x) 0 rc_circuit nan 0%float rc_store
     = Returned rc_store 0 ∧
   (nan <=? 0)%float = false ∧ (0 <? 0)%float = false) ∧
  ((∃ st', Circuit.simulate (λ x, x) 1 rc_circuit 1%float nan rc_store
           = Returned st' 2) ∧
   (1 <=? 0)%float = false ∧ (0 <? nan)%float = false) ∧
  ((∀ fuel, Circuit.simulate (λ x, x) fuel rc_circuit 1%float least_positive
              rc_store = OutOfFuel) ∧
   (0 <? least_positive)%float = true ∧
   (stall_point + least_positive)%float = stall_point).
Proof.
  split; [done|]. split.
  - split; [|done]. eexists. vm_compute. reflexivity.
  - split; [|done]. intros fuel.
    destruct (store_closed_items _ _ rc_store_closed) as [Hown Hlive].
    apply (simulate_loop_diverges (λ x, x) rc_circuit 1%float least_positive
             fuel 0 0 rc_store Hown Hlive).
    intros j. apply below_stall_lt_one, time_after_below_stall.
Qed.

(** C10 (amended): [simulate] returns at once, having made no
    [component->simulate] call and with the store as it was, exactly when
    [0 < duration] does not hold (duration at most zero, or NaN).  With
    [0 < duration] and [timestep <= 0] the loop never returns: whatever the
    number of iterations allowed, the call has not returned, and on a store
    where every pointer is live it is still looping.  In general, on such a
    store, the call returns after [n] passes when the [n]-th binary64
    partial sum of [timestep] is the first that is not below [duration],
    and loops for ever when every partial sum is below [duration]. *)
Theorem simulate_termination (exp : float → float) (c : Circuit.t)
    (duration timestep : float) (st : Store) :
  (Circuit.simulate exp 0 c duration timestep st = Returned st 0
   ↔ (0 <? duration)%float = false) ∧
  ((0 <? duration)%float = false →
   ∀ fuel, Circuit.simulate exp fuel c duration timestep st = Returned st 0) ∧
  ((0 <? duration)%float = true → (timestep <=? 0)%float = true →
   ∀ fuel,
     (∀ st' calls, Circuit.simulate exp fuel c duration timestep st
                   ≠ Returned st' calls) ∧
     (store_closed c st →
      Circuit.simulate exp fuel c duration timestep st = OutOfFuel)) ∧
  (store_closed c st →
   ∀ n, (∀ k, k < n → (time_after timestep k <? duration)%float = true) →
        (time_after timestep n <? duration)%float = false →
   ∀ fuel, n ≤ fuel →
     ∃ st', Circuit.simulate exp fuel c duration timestep st
            = Returned st'
                (n * length (std_map_items (Circuit.components_ c)))) ∧
  (store_closed c st →
   (∀ n, (time_after timestep n <? duration)%float = true) →
   ∀ fuel, Circuit.simulate exp fuel c duration timestep st = OutOfFuel).
Proof.
  unfold Circuit.simulate. split; [|split; [|split; [|split]]].
  - simpl. destruct (0 <? duration)%float; split; done.
  - intros Hdur fuel. destruct fuel; simpl; by rewrite Hdur.
  - intros Hdur Hstep fuel.
    destruct (simulate_loop_stuck exp fuel c duration timestep 0%float 0 st
                Hdur Hstep eq_refl) as [Hnever Hloop].
    split; [exact Hnever|]. intros Hclosed.
    apply store_closed_items in Hclosed as [Hown Hlive]. by apply Hloop.
  - intros Hclosed n Hbelow Hreached fuel Hfuel.
    apply store_closed_items in Hclosed as [Hown Hlive].
    apply (simulate_loop_returns exp c duration timestep n 0 fuel 0 st);
      done.
  - intros Hclosed Hbelow fuel.
    apply store_closed_items in Hclosed as [Hown Hlive].
    apply (simulate_loop_diverges exp c duration timestep fuel 0 0 st);
      done.
Qed.

Lemma simulate_termination_witness :
  Circuit.simulate (λ x, x) 7 rc_circuit (-1)%float 1e-6%float rc_store
    = Returned rc_store 0 ∧
  Circuit.simulate (λ x, x) 1000 rc_circuit 0.001%float 0%float rc_store
    = OutOfFuel ∧
  Circuit.simulate (λ x, x) 1000 rc_circuit 0.001%float (-1e-6)%float
    rc_store = OutOfFuel ∧
  ∃ st', Circuit.simulate (λ x, x) 10 rc_circuit 3e-6%float 1e-6%float
           rc_store
         = Returned st'
             (3 * length (std_map_items (Circuit.components_ rc_circuit))).
Proof.
  split; [|split; [|split]].
  - destruct (simulate_termination (λ x, x) rc_circuit (-1)%float
                1e-6%float rc_store) as (_ & Hreturn & _).
    apply Hreturn. reflexivity.
  - destruct (simulate_termination (λ x, x) rc_circuit 0.001%float 0%float
                rc_store) as (_ & _ & Hloop & _).
    apply (Hloop eq_refl eq_refl 1000), rc_store_closed.
  - destruct (simulate_termination (λ x, x) rc_circuit 0.001%float
                (-1e-6)%float rc_store) as (_ & _ & Hloop & _).
    apply (Hloop eq_refl eq_refl 1000), rc_store_closed.
  - destruct (simulate_termination (λ x, x) rc_circuit 3e-6%float
                1e-6%float rc_store) as (_ & _ & _ & Hreturn & _).
    apply (Hreturn rc_store_closed 3); [|reflexivity|lia].
    intros k Hk. destruct k as [|[|[|k]]]; [reflexivity..|lia].
Defined.

(** The run of [test_circuit_simulation], [simulate(0.001, 1e-6)], returns
    after 1000 passes over the two components. *)
Example test_simulation_returns :
  ∃ st', Circuit.simulate (λ x, x) 1000 rc_circuit 0.001%float 1e-6%float
           rc_store = Returned st' 2000.
Proof. eexists. vm_compute. reflexivity. Qed.

(** * Further properties *)

(** ** Sorting and deduplicating strings *)

Lemma ascii_compare_lt_trans a b c :
  Ascii.compare a b = Lt → Ascii.compare b c = Lt → Ascii.compare a c = Lt.
Proof.
  unfold Ascii.compare. rewrite !N.compare_lt_iff. lia.
Qed.

Lemma string_compare_lt_trans a b c :
  String.compare a b = Lt → String.compare b c = Lt →
  String.compare a c = Lt.
Proof.
  revert b c. induction a as [|x a IH]; intros [|y b] [|z c]; simpl;
    try done.
  destruct (Ascii.compare x y) eqn:Hxy; [| |done].
  - apply Ascii.compare_eq_iff in Hxy as ->.
    destruct (Ascii.compare y z) eqn:Hyz; [|done|done]. apply IH.
  - destruct (Ascii.compare y z) eqn:Hyz; [| |done].
    + apply Ascii.compare_eq_iff in Hyz as <-. by rewrite Hxy.
    + by rewrite (ascii_compare_lt_trans x y z Hxy Hyz).
Qed.

Lemma string_compare_refl a : String.compare a a = Eq.
Proof.
  induction a as [|x a IH]; [done|]. simpl.
  unfold Ascii.compare. by rewrite N.compare_refl.
Qed.

#[global] Instance str_lt_trans : Transitive str_lt.
Proof.
  intros a b c. unfold str_lt, String.ltb.
  destruct (String.compare a b) eqn:Hab; try done.
  destruct (String.compare b c) eqn:Hbc; try done.
  by rewrite (string_compare_lt_trans a b c).
Qed.

#[global] Instance str_lt_irrefl : Irreflexive str_lt.
Proof.
  intros a. unfold complement, str_lt, String.ltb.
  by rewrite string_compare_refl.
Qed.

#[global] Instance str_le_total : Total str_le.
Proof. intros a b. apply String.leb_total. Qed.

Lemma str_le_neq_lt a b : str_le a b → a ≠ b → str_lt a b.
Proof.
  unfold str_le, str_lt, String.leb, String.ltb.
  destruct (String.compare a b) eqn:Hab; try done.
  apply String.compare_eq_iff in Hab. done.
Qed.

Lemma elem_of_unique_from prev l x :
  x ∈ unique_from prev l → x ∈ l.
Proof.
  revert prev. induction l as [|y l IH]; intros prev; simpl; [done|].
  destruct (decide (y = prev)).
  - intros ?%IH. by right.
  - intros [->|?%IH]%elem_of_cons; [left|by right].
Qed.

Lemma elem_of_unique_from_2 prev l x :
  x ∈ l → x = prev ∨ x ∈ unique_from prev l.
Proof.
  revert prev. induction l as [|y l IH]; intros prev; simpl.
  - by intros ?%elem_of_nil.
  - intros [->|Hin]%elem_of_cons.
    + destruct (decide (y = prev)); [by left|right; left].
    + destruct (decide (y = prev)) as [->|Hne]; [by apply IH|].
      destruct (IH y Hin) as [->|?]; right; [left|by right].
Qed.

Lemma elem_of_std_unique l x : x ∈ std_unique l ↔ x ∈ l.
Proof.
  destruct l as [|y l]; [done|]. simpl. split.
  - intros [->|?%elem_of_unique_from]%elem_of_cons; [left|by right].
  - intros [->|Hin]%elem_of_cons; [left|].
    destruct (elem_of_unique_from_2 y l x Hin) as [->|?]; [left|by right].
Qed.

(** On an ascending list, what [unique_from] keeps is strictly ascending
    and above [prev]. *)
Lemma unique_from_ascending prev l :
  Sorted str_le (prev :: l) →
  Sorted str_lt (prev :: unique_from prev l).
Proof.
  revert prev. induction l as [|y l IH]; intros prev Hs; simpl.
  - by repeat constructor.
  - apply Sorted_inv in Hs as [Hs Hhd]. apply HdRel_inv in Hhd.
    destruct (decide (y = prev)) as [->|Hne]; [by apply IH|].
    constructor; [by apply IH|]. constructor. by apply str_le_neq_lt.
Qed.

Lemma std_unique_sort_ascending l :
  Sorted str_lt (std_unique (std_sort l)).
Proof.
  unfold std_sort.
  pose proof (Sorted_merge_sort str_le l) as Hs.
  destruct (merge_sort str_le l) as [|x l']; [constructor|].
  simpl. by apply unique_from_ascending.
Qed.

Lemma elem_of_std_sort l x : x ∈ std_sort l ↔ x ∈ l.
Proof. unfold std_sort. by rewrite merge_sort_Permutation. Qed.

Lemma Sorted_str_lt_NoDup l : Sorted str_lt l → NoDup l.
Proof.
  intros Hs. apply Sorted_StronglySorted in Hs; [|apply _].
  induction Hs as [|x l Hs IH Hall]; constructor; [|done].
  intros Hin. rewrite Forall_forall in Hall.
  by apply (irreflexivity str_lt x), Hall.
Qed.

(** ** The registry of the plugin manager *)

Lemma elem_of_getLoadedPlugins name (self : PluginManager.t) :
  name ∈ PluginManager.getLoadedPlugins self
  ↔ is_Some (PluginManager.getPlugin name self).
Proof.
  unfold PluginManager.getLoadedPlugins, PluginManager.getPlugin.
  rewrite list_elem_of_fmap. split.
  - intros ([k p] & -> & Hin). apply elem_of_std_map_items in Hin.
    by eexists.
  - intros [p Hp]. exists (name, p). split; [done|].
    by apply elem_of_std_map_items.
Qed.

(** X1.  [getLoadedPlugins()] lists exactly the registered names, each once, in
    ascending order. *)
Theorem getLoadedPlugins_spec (self : PluginManager.t) :
  (∀ name, name ∈ PluginManager.getLoadedPlugins self
           ↔ is_Some (PluginManager.getPlugin name self)) ∧
  NoDup (PluginManager.getLoadedPlugins self) ∧
  Sorted str_le (PluginManager.getLoadedPlugins self).
Proof.
  split; [|split].
  - intros name. apply elem_of_getLoadedPlugins.
  - apply NoDup_std_map_items_keys.
  - unfold PluginManager.getLoadedPlugins.
    pose proof (std_map_items_ascending (PluginManager.plugins_ self)) as Hs.
    induction Hs as [|[k p] l Hs IH Hhd]; [constructor|].
    simpl. constructor; [exact IH|].
    destruct Hhd as [|[k' p'] l' Hle]; constructor. exact Hle.
Qed.

(** X2.  A successful load: the library opens, exports the factory, the factory
    gives an instance and its [initialize()] answers true. *)
Theorem loadPlugin_registers (ld : Loader) (plugin_path : string)
    (w : PluginManager.Process) (handle : nat)
    (createPlugin : unit → option IPlugin) (plugin plugin' : IPlugin) :
  LOAD_LIBRARY ld plugin_path = Some handle →
  GET_PROC_ADDRESS ld handle "createPlugin" = Some createPlugin →
  createPlugin () = Some plugin →
  IPlugin_initialize plugin = (true, plugin') →
  let name := IPlugin_getName plugin' in
  ∃ w',
  PluginManager.loadPlugin ld plugin_path w = Some (true, w') ∧
  PluginManager.getPlugin name (PluginManager.instance w') = Some plugin' ∧
  PluginManager.plugin_handles_ (PluginManager.instance w') !! name
    = Some handle ∧
  PluginManager.open_libraries w'
    = handle :: PluginManager.open_libraries w ∧
  (∀ other, other ≠ name →
     PluginManager.getPlugin other (PluginManager.instance w')
       = PluginManager.getPlugin other (PluginManager.instance w) ∧
     PluginManager.plugin_handles_ (PluginManager.instance w') !! other
       = PluginManager.plugin_handles_ (PluginManager.instance w) !! other).
Proof.
  intros Hopen Hsym Hnew Hinit name. subst name.
  unfold PluginManager.loadPlugin, PluginManager.getPlugin.
  rewrite Hopen, Hsym, Hnew, Hinit. simpl.
  eexists. split; [reflexivity|]. simpl.
  split; [apply lookup_insert_eq|].
  split; [apply lookup_insert_eq|]. split; [done|].
  intros other Hne. by rewrite !lookup_insert_ne.
Qed.

Lemma loadPlugin_registers_witness :
  PluginManager.getLoadedPlugins (PluginManager.instance example_loaded)
    = ["ExamplePlugin"] ∧
  (PluginManager.plugin_handles_ (PluginManager.instance example_loaded)
     !! "ExamplePlugin" = Some 1) ∧
  PluginManager.open_libraries example_loaded = [1].
Proof.
  destruct (loadPlugin_registers test_loader "plugins/libexample.so"
              fresh_process 1 ExamplePlugin.createPlugin
              (BasePlugin.as_IPlugin ExamplePlugin.new)
              (IPlugin_initialize
                 (BasePlugin.as_IPlugin ExamplePlugin.new)).2)
    as (w' & Hload & _ & Hhandle & Hopen & _); [reflexivity..|].
  unfold example_loaded. rewrite Hload.
  split; [|split; [exact Hhandle|exact Hopen]].
  vm_compute in Hload. injection Hload as <-. reflexivity.
Defined.

(** X3.  [unloadPlugin(name)] answers false exactly when no plugin is registered
    under [name], and then changes nothing. *)
Theorem unloadPlugin_unknown (plugin_name : string)
    (w : PluginManager.Process) :
  ((PluginManager.unloadPlugin plugin_name w).1 = false
   ↔ PluginManager.getPlugin plugin_name (PluginManager.instance w) = None) ∧
  (PluginManager.getPlugin plugin_name (PluginManager.instance w) = None →
   PluginManager.unloadPlugin plugin_name w = (false, w)).
Proof.
  unfold PluginManager.unloadPlugin, PluginManager.getPlugin.
  destruct (PluginManager.plugins_ (PluginManager.instance w) !! plugin_name)
    as [plugin|]; [|done].
  split; [|done].
  by destruct (PluginManager.plugin_handles_ (PluginManager.instance w)
                 !! plugin_name).
Qed.

(** X4.  [unloadPlugin(name)] of a registered plugin answers true, erases the
    name from the registry and from the handle map, closes the recorded
    handle once, and leaves every other entry alone. *)
Theorem unloadPlugin_registered (plugin_name : string)
    (w : PluginManager.Process) (plugin : IPlugin) (handle : nat) :
  PluginManager.getPlugin plugin_name (PluginManager.instance w)
    = Some plugin →
  PluginManager.plugin_handles_ (PluginManager.instance w) !! plugin_name
    = Some handle →
  let w' := (PluginManager.unloadPlugin plugin_name w).2 in
  (PluginManager.unloadPlugin plugin_name w).1 = true ∧
  PluginManager.getPlugin plugin_name (PluginManager.instance w') = None ∧
  (plugin_name
     ∉ PluginManager.getLoadedPlugins (PluginManager.instance w')) ∧
  PluginManager.plugin_handles_ (PluginManager.instance w') !! plugin_name
    = None ∧
  PluginManager.open_libraries w'
    = PluginManager.remove_first handle (PluginManager.open_libraries w) ∧
  (∀ other, other ≠ plugin_name →
     PluginManager.getPlugin other (PluginManager.instance w')
       = PluginManager.getPlugin other (PluginManager.instance w) ∧
     PluginManager.plugin_handles_ (PluginManager.instance w') !! other
       = PluginManager.plugin_handles_ (PluginManager.instance w) !! other).
Proof.
  intros Hp Hh w'. subst w'.
  assert (Hgone : PluginManager.getPlugin plugin_name
            (PluginManager.instance
               (PluginManager.unloadPlugin plugin_name w).2) = None).
  { unfold PluginManager.unloadPlugin, PluginManager.getPlugin in *.
    rewrite Hp, Hh. simpl. apply lookup_delete_eq. }
  split; [|split; [exact Hgone|split]].
  - unfold PluginManager.unloadPlugin, PluginManager.getPlugin in *.
    by rewrite Hp, Hh.
  - intros Hin. apply elem_of_getLoadedPlugins in Hin as [p Hin].
    by rewrite Hgone in Hin.
  - unfold PluginManager.unloadPlugin, PluginManager.getPlugin in *.
    rewrite Hp, Hh. simpl. split; [apply lookup_delete_eq|].
    split; [done|]. intros other Hne. by rewrite !lookup_delete_ne.
Qed.

Lemma unloadPlugin_registered_witness :
  let w' := (PluginManager.unloadPlugin "ExamplePlugin" example_loaded).2 in
  (PluginManager.unloadPlugin "ExamplePlugin" example_loaded).1 = true ∧
  PluginManager.getPlugin "ExamplePlugin" (PluginManager.instance w')
    = None ∧
  PluginManager.open_libraries w' = PluginManager.remove_first 1 [1].
Proof.
  intros w'.
  destruct (unloadPlugin_registered "ExamplePlugin" example_loaded
              (IPlugin_initialize
                 (BasePlugin.as_IPlugin ExamplePlugin.new)).2 1)
    as (Hret & Hgone & _ & _ & Hopen & _);
    [vm_compute; reflexivity | vm_compute; reflexivity |].
  split; [exact Hret|]. split; [exact Hgone|exact Hopen].
Defined.

(** X5.  Loading a plugin under a name that is not in use and unloading it
    again gives back the process as it was: registry, handle map and open
    libraries. *)
Theorem load_unload_roundtrip (ld : Loader) (plugin_path : string)
    (w : PluginManager.Process) (handle : nat)
    (createPlugin : unit → option IPlugin) (plugin plugin' : IPlugin) :
  LOAD_LIBRARY ld plugin_path = Some handle →
  GET_PROC_ADDRESS ld handle "createPlugin" = Some createPlugin →
  createPlugin () = Some plugin →
  IPlugin_initialize plugin = (true, plugin') →
  PluginManager.getPlugin (IPlugin_getName plugin')
    (PluginManager.instance w) = None →
  PluginManager.plugin_handles_ (PluginManager.instance w)
    !! IPlugin_getName plugin' = None →
  ∃ w',
    PluginManager.loadPlugin ld plugin_path w = Some (true, w') ∧
    PluginManager.unloadPlugin (IPlugin_getName plugin') w' = (true, w).
Proof.
  intros Hopen Hsym Hnew Hinit Hfree Hfreeh.
  unfold PluginManager.loadPlugin, PluginManager.unloadPlugin,
    PluginManager.getPlugin in *.
  rewrite Hopen, Hsym, Hnew, Hinit. simpl.
  eexists. split; [reflexivity|]. simpl.
  rewrite !lookup_insert_eq. simpl.
  rewrite !delete_insert_id by done. rewrite decide_True by done.
  by destruct w as [[plugins handles] libs].
Qed.

Lemma load_unload_roundtrip_witness :
  PluginManager.loadPlugin test_loader "plugins/libexample.so" fresh_process
    = Some (true, example_loaded) ∧
  PluginManager.unloadPlugin "ExamplePlugin" example_loaded
    = (true, fresh_process).
Proof.
  destruct (load_unload_roundtrip test_loader "plugins/libexample.so"
              fresh_process 1 ExamplePlugin.createPlugin
              (BasePlugin.as_IPlugin ExamplePlugin.new)
              (IPlugin_initialize (BasePlugin.as_IPlugin ExamplePlugin.new)).2)
    as (w' & Hload & Hunload); [reflexivity..|].
  unfold example_loaded. rewrite Hload. split; [reflexivity|exact Hunload].
Defined.

(** X6.  Two loads whose plugins report the same name: the second replaces the
    first in the registry and in the handle map.  Unloading the name then
    closes only the second handle; the library opened by the first load
    stays open, and no entry is left through which it could be closed. *)
Theorem load_same_name_leaks_handle (ld : Loader) (path1 path2 : string)
    (w : PluginManager.Process) (h1 h2 : nat)
    (create1 create2 : unit → option IPlugin) (p1 p1' p2 p2' : IPlugin) :
  LOAD_LIBRARY ld path1 = Some h1 →
  GET_PROC_ADDRESS ld h1 "createPlugin" = Some create1 →
  create1 () = Some p1 → IPlugin_initialize p1 = (true, p1') →
  LOAD_LIBRARY ld path2 = Some h2 →
  GET_PROC_ADDRESS ld h2 "createPlugin" = Some create2 →
  create2 () = Some p2 → IPlugin_initialize p2 = (true, p2') →
  IPlugin_getName p1' = IPlugin_getName p2' →
  let name := IPlugin_getName p2' in
  ∃ w1 w2,
  PluginManager.loadPlugin ld path1 w = Some (true, w1) ∧
  PluginManager.loadPlugin ld path2 w1 = Some (true, w2) ∧
  let w3 := (PluginManager.unloadPlugin name w2).2 in
  PluginManager.getPlugin name (PluginManager.instance w2) = Some p2' ∧
  PluginManager.plugin_handles_ (PluginManager.instance w2) !! name
    = Some h2 ∧
  (PluginManager.unloadPlugin name w2).1 = true ∧
  PluginManager.open_libraries w3 = h1 :: PluginManager.open_libraries w ∧
  PluginManager.getPlugin name (PluginManager.instance w3) = None ∧
  PluginManager.plugin_handles_ (PluginManager.instance w3) !! name = None ∧
  PluginManager.unloadPlugin name w3 = (false, w3).
Proof.
  intros Ho1 Hs1 Hn1 Hi1 Ho2 Hs2 Hn2 Hi2 Hname name. subst name.
  unfold PluginManager.loadPlugin.
  rewrite Ho1, Hs1, Hn1, Hi1. simpl.
  eexists. eexists. split; [reflexivity|].
  rewrite Ho2, Hs2, Hn2, Hi2. simpl. split; [reflexivity|].
  unfold PluginManager.unloadPlugin, PluginManager.getPlugin. simpl.
  rewrite Hname.
  rewrite !lookup_insert_eq. simpl. rewrite decide_True by done.
  rewrite !lookup_delete_eq. done.
Qed.

Lemma load_same_name_leaks_handle_witness :
  ∃ w1 w2,
    PluginManager.loadPlugin twin_loader "plugins/libexample.so"
      fresh_process = Some (true, w1) ∧
    PluginManager.loadPlugin twin_loader "plugins/libcopy.so" w1
      = Some (true, w2) ∧
    let w3 := (PluginManager.unloadPlugin "ExamplePlugin" w2).2 in
    PluginManager.plugin_handles_ (PluginManager.instance w2)
      !! "ExamplePlugin" = Some 2 ∧
    PluginManager.open_libraries w3 = [1] ∧
    PluginManager.unloadPlugin "ExamplePlugin" w3 = (false, w3).
Proof.
  destruct (load_same_name_leaks_handle twin_loader "plugins/libexample.so"
              "plugins/libcopy.so" fresh_process 1 2
              ExamplePlugin.createPlugin ExamplePlugin.createPlugin
              (BasePlugin.as_IPlugin ExamplePlugin.new)
              (IPlugin_initialize (BasePlugin.as_IPlugin ExamplePlugin.new)).2
              (BasePlugin.as_IPlugin ExamplePlugin.new)
              (IPlugin_initialize (BasePlugin.as_IPlugin ExamplePlugin.new)).2)
    as (w1 & w2 & Hl1 & Hl2 & _ & Hh & _ & Hopen & _ & _ & Hagain);
    [reflexivity..|].
  exists w1, w2. split; [exact Hl1|]. split; [exact Hl2|].
  split; [exact Hh|]. split; [exact Hopen|exact Hagain].
Defined.

(** ** The registry and the handle map keep the same names *)

Lemma dom_delete_both (plugins : gmap string IPlugin)
    (handles : gmap string nat) name :
  dom plugins = dom handles →
  dom (delete name plugins) = dom (delete name handles).
Proof. intros H. by rewrite !dom_delete_L, H. Qed.

Lemma unloadPlugin_consistent name w :
  registry_consistent w →
  registry_consistent (PluginManager.unloadPlugin name w).2.
Proof.
  intros Hc. unfold registry_consistent in *.
  unfold PluginManager.unloadPlugin.
  destruct (PluginManager.plugins_ (PluginManager.instance w) !! name)
    as [plugin|] eqn:Hp; [|done].
  destruct (PluginManager.plugin_handles_ (PluginManager.instance w)
              !! name) as [handle|] eqn:Hh; simpl.
  - by apply dom_delete_both.
  - apply not_elem_of_dom in Hh. rewrite <- Hc in Hh.
    apply not_elem_of_dom in Hh. by rewrite Hh in Hp.
Qed.

Lemma loadPlugin_consistent ld plugin_path w ok w' :
  registry_consistent w →
  PluginManager.loadPlugin ld plugin_path w = Some (ok, w') →
  registry_consistent w'.
Proof.
  intros Hc. unfold registry_consistent in *.
  unfold PluginManager.loadPlugin.
  destruct (LOAD_LIBRARY ld plugin_path) as [handle|];
    [|by intros [= _ <-]].
  destruct (GET_PROC_ADDRESS ld handle "createPlugin") as [f|];
    [|by intros [= _ <-]].
  destruct (f ()) as [plugin|]; [|by intros [= _ <-]].
  destruct (IPlugin_initialize plugin) as [[|] plugin']; cbn [negb]; cbv zeta.
  - intros [= _ <-]. simpl. by rewrite !dom_insert_L, Hc.
  - destruct (decide (handle ∈ _)); [|done]. by intros [= _ <-].
Qed.

Lemma unloadAllPlugins_consistent w :
  registry_consistent w →
  registry_consistent (PluginManager.unloadAllPlugins w).
Proof.
  unfold PluginManager.unloadAllPlugins.
  generalize ((std_map_items
                 (PluginManager.plugins_ (PluginManager.instance w))).*1).
  intros names. revert w.
  induction names as [|name names IH]; intros w Hc; [done|].
  simpl. by apply IH, unloadPlugin_consistent.
Qed.

(** X7.  [loadPlugin], [unloadPlugin] and [unloadAllPlugins] keep
    [registry_consistent]: a name has a plugin exactly when it has a
    handle.  The fresh manager satisfies it. *)
Theorem registry_consistent_preserved (ld : Loader)
    (w : PluginManager.Process) :
  registry_consistent fresh_process ∧
  (registry_consistent w →
   (∀ plugin_path ok w',
      PluginManager.loadPlugin ld plugin_path w = Some (ok, w') →
      registry_consistent w') ∧
   (∀ plugin_name,
      registry_consistent (PluginManager.unloadPlugin plugin_name w).2) ∧
   registry_consistent (PluginManager.unloadAllPlugins w)).
Proof.
  split; [done|]. intros Hc. split; [|split].
  - intros plugin_path ok w'. by apply loadPlugin_consistent.
  - intros name. by apply unloadPlugin_consistent.
  - by apply unloadAllPlugins_consistent.
Qed.

Lemma registry_consistent_preserved_witness :
  registry_consistent example_loaded ∧
  registry_consistent
    (PluginManager.unloadPlugin "ExamplePlugin" example_loaded).2 ∧
  registry_consistent (PluginManager.unloadAllPlugins example_loaded).
Proof.
  destruct (registry_consistent_preserved test_loader fresh_process)
    as [Hfresh Hstep].
  destruct (Hstep Hfresh) as (Hload & _ & _).
  pose proof (Hload "plugins/libexample.so" true example_loaded eq_refl)
    as Hex.
  destruct (registry_consistent_preserved test_loader example_loaded)
    as [_ Hstep'].
  destruct (Hstep' Hex) as (_ & Hunload & Hall).
  split; [exact Hex|]. split; [apply Hunload|exact Hall].
Defined.

(** ** Unloading everything *)

Lemma unloadPlugin_plugins name w :
  PluginManager.plugins_
    (PluginManager.instance (PluginManager.unloadPlugin name w).2)
  = delete name (PluginManager.plugins_ (PluginManager.instance w)).
Proof.
  unfold PluginManager.unloadPlugin.
  destruct (PluginManager.plugins_ (PluginManager.instance w) !! name)
    as [plugin|] eqn:Hp.
  - by destruct (PluginManager.plugin_handles_ (PluginManager.instance w)
                   !! name).
  - simpl. by rewrite delete_id.
Qed.

Lemma unload_each_plugins names w k :
  PluginManager.plugins_
    (PluginManager.instance
       (foldl (λ w name, (PluginManager.unloadPlugin name w).2) w names))
    !! k
  = if decide (k ∈ names) then None
    else PluginManager.plugins_ (PluginManager.instance w) !! k.
Proof.
  revert w. induction names as [|name names IH]; intros w; cbn [foldl].
  - rewrite decide_False; [done|apply not_elem_of_nil].
  - rewrite IH, unloadPlugin_plugins.
    destruct (decide (k = name)) as [->|Hne].
    + rewrite lookup_delete_eq.
      destruct (decide (name ∈ name :: names)) as [_|Hnin];
        [|destruct Hnin; left].
      by destruct (decide (name ∈ names)).
    + rewrite lookup_delete_ne by done.
      destruct (decide (k ∈ names)) as [Hin|Hnin];
        destruct (decide (k ∈ name :: names)) as [Hin'|Hnin']; try done.
      * destruct Hnin'. by right.
      * apply elem_of_cons in Hin' as [?|?]; done.
Qed.

(** X8.  After [unloadAllPlugins()] no plugin is registered, and on a manager
    whose registry and handle map agree on their names the handle map is
    empty too. *)
Theorem unloadAllPlugins_empties (w : PluginManager.Process) :
  PluginManager.plugins_
    (PluginManager.instance (PluginManager.unloadAllPlugins w)) = ∅ ∧
  PluginManager.getLoadedPlugins
    (PluginManager.instance (PluginManager.unloadAllPlugins w)) = [] ∧
  (registry_consistent w →
   PluginManager.plugin_handles_
     (PluginManager.instance (PluginManager.unloadAllPlugins w)) = ∅).
Proof.
  assert (Hempty : PluginManager.plugins_
            (PluginManager.instance (PluginManager.unloadAllPlugins w)) = ∅).
  { apply map_eq. intros k. rewrite lookup_empty.
    unfold PluginManager.unloadAllPlugins. rewrite unload_each_plugins.
    destruct (decide (k ∈ (std_map_items
                (PluginManager.plugins_ (PluginManager.instance w))).*1))
      as [_|Hnin]; [done|].
    destruct (PluginManager.plugins_ (PluginManager.instance w) !! k)
      as [p|] eqn:Hk; [|done].
    destruct Hnin. apply list_elem_of_fmap. exists (k, p).
    split; [done|]. by apply elem_of_std_map_items. }
  split; [exact Hempty|]. split.
  - unfold PluginManager.getLoadedPlugins, std_map_items.
    by rewrite Hempty, map_to_list_empty.
  - intros Hc. apply unloadAllPlugins_consistent in Hc as Hall.
    unfold registry_consistent in Hall. rewrite Hempty, dom_empty_L in Hall.
    symmetry in Hall. by apply dom_empty_inv_L in Hall.
Qed.

(** ** Component creation through the manager *)

Lemma createComponent_loop_Some items type parameters component :
  PluginManager.createComponent_loop items type parameters = Some component →
  ∃ name plugin, (name, plugin) ∈ items ∧
    type ∈ IPlugin_getSupportedComponents plugin ∧
    IPlugin_createComponent plugin type parameters = Some component.
Proof.
  induction items as [|[name plugin] items IH]; simpl; [done|].
  destruct (decide (type ∈ IPlugin_getSupportedComponents plugin))
    as [Hsup|_].
  - destruct (IPlugin_createComponent plugin type parameters) as [c|] eqn:Hc.
    + intros [= ->]. exists name, plugin. split; [left|done].
    + intros (n & p & Hin & H)%IH. exists n, p. split; [by right|done].
  - intros (n & p & Hin & H)%IH. exists n, p. split; [by right|done].
Qed.

Lemma createComponent_loop_None items type parameters :
  PluginManager.createComponent_loop items type parameters = None ↔
  ∀ name plugin, (name, plugin) ∈ items →
    type ∈ IPlugin_getSupportedComponents plugin →
    IPlugin_createComponent plugin type parameters = None.
Proof.
  induction items as [|[name plugin] items IH]; simpl.
  - split; [|done]. by intros _ n p ?%elem_of_nil.
  - destruct (decide (type ∈ IPlugin_getSupportedComponents plugin))
      as [Hsup|Hnsup].
    + destruct (IPlugin_createComponent plugin type parameters) as [c|] eqn:Hc.
      * split; [done|]. intros H.
        specialize (H name plugin (list_elem_of_here _ _) Hsup). congruence.
      * rewrite IH. split.
        -- intros H n p [[= -> ->]|Hin]%elem_of_cons;
             [by intros _|by apply (H n p)].
        -- intros H n p Hin. apply (H n p). by right.
    + rewrite IH. split.
      * intros H n p [[= -> ->]|Hin]%elem_of_cons;
          [by intros ?|by apply (H n p)].
      * intros H n p Hin. apply (H n p). by right.
Qed.

(** X9.  [PluginManager::createComponent]: a component it returns was produced
    by a registered plugin that lists the type, and it returns null exactly
    when every registered plugin that lists the type produces null (in
    particular when no plugin is registered or none lists the type). *)
Theorem createComponent_from_registered (self : PluginManager.t)
    (type : string) (parameters : gmap string float) :
  (∀ component,
     PluginManager.createComponent self type parameters = Some component →
     ∃ name plugin, PluginManager.getPlugin name self = Some plugin ∧
       type ∈ IPlugin_getSupportedComponents plugin ∧
       IPlugin_createComponent plugin type parameters = Some component) ∧
  (PluginManager.createComponent self type parameters = None ↔
   ∀ name plugin, PluginManager.getPlugin name self = Some plugin →
     type ∈ IPlugin_getSupportedComponents plugin →
     IPlugin_createComponent plugin type parameters = None) ∧
  (PluginManager.plugins_ self = ∅ →
   PluginManager.createComponent self type parameters = None).
Proof.
  unfold PluginManager.createComponent, PluginManager.getPlugin.
  split; [|split].
  - intros component (n & p & Hin & H)%createComponent_loop_Some.
    exists n, p. split; [|done]. by apply elem_of_std_map_items.
  - rewrite createComponent_loop_None. split.
    + intros H n p Hp. apply (H n p). by apply elem_of_std_map_items.
    + intros H n p Hin. apply (H n p). by apply elem_of_std_map_items.
  - intros ->. unfold std_map_items. by rewrite map_to_list_empty.
Qed.

(** ** The supported types of all plugins *)

(** X10.  [getAllSupportedComponents()] holds a type exactly when a registered
    plugin lists it, holds it once, and is in strictly ascending order. *)
Theorem getAllSupportedComponents_spec (self : PluginManager.t) :
  (∀ type, type ∈ PluginManager.getAllSupportedComponents self ↔
     ∃ name plugin, PluginManager.getPlugin name self = Some plugin ∧
       type ∈ IPlugin_getSupportedComponents plugin) ∧
  Sorted str_lt (PluginManager.getAllSupportedComponents self) ∧
  NoDup (PluginManager.getAllSupportedComponents self).
Proof.
  unfold PluginManager.getAllSupportedComponents, PluginManager.getPlugin.
  split; [|split].
  - intros type. rewrite elem_of_std_unique, elem_of_std_sort.
    rewrite list_elem_of_join. split.
    + intros (l & Hin & Hl). apply list_elem_of_fmap in Hl as ([n p] & -> & Hl).
      exists n, p. split; [|done]. by apply elem_of_std_map_items.
    + intros (n & p & Hp & Hin).
      exists (IPlugin_getSupportedComponents p). split; [done|].
      apply list_elem_of_fmap. exists (n, p). split; [done|].
      by apply elem_of_std_map_items.
  - apply std_unique_sort_ascending.
  - apply Sorted_str_lt_NoDup, std_unique_sort_ascending.
Qed.

(** ** The example plugin's factory *)

(** X11.  [ExamplePlugin::createComponent] produces a component exactly for the
    types [getSupportedComponents()] lists.  The component has the
    requested type, an empty id, no terminals and a zero reading; its
    parameter is the one passed under [inductance] / [forward_voltage], or
    the default 1e-3 / 0.7 when that key is absent. *)
Theorem ExamplePlugin_createComponent_spec (self : BasePlugin.t unit)
    (type : string) (parameters : gmap string float) :
  (is_Some (BasePlugin.createComponent self type parameters)
   ↔ type ∈ BasePlugin.getSupportedComponents self) ∧
  (∀ component,
     BasePlugin.createComponent self type parameters = Some component →
     Component.getType component = type ∧
     Component.getId component = "" ∧
     Component.nodes_ component = [] ∧
     Component.getCurrentValue component = 0%float ∧
     match Component.self_ component with
     | Component.IsInductor l =>
         Inductor.getInductance l
         = default 1e-3%float (parameters !! "inductance")
     | Component.IsDiode d =>
         Diode.forward_voltage_ d
         = default 0.7%float (parameters !! "forward_voltage")
     | _ => False
     end).
Proof.
  simpl. split.
  - destruct (decide (type = "Inductor")) as [->|Hni].
    { split; [intros _; left|by eexists]. }
    destruct (decide (type = "Diode")) as [->|Hnd].
    { split; [intros _; right; left|by eexists]. }
    split; [by intros [? ?]|].
    intros [?|[?|?%elem_of_nil]%elem_of_cons]%elem_of_cons; done.
  - intros component.
    destruct (decide (type = "Inductor")) as [->|Hni].
    { intros [= <-]. unfold ExamplePlugin.parameter. simpl.
      by destruct (parameters !! "inductance"). }
    destruct (decide (type = "Diode")) as [->|Hnd]; [|done].
    intros [= <-]. unfold ExamplePlugin.parameter. simpl.
    by destruct (parameters !! "forward_voltage").
Qed.

(** ** [BasePlugin::cleanup] *)

(** X12.  [cleanup()] leaves the plugin uninitialized; on a plugin that is not
    initialized it changes nothing, on an initialized one it runs
    [doCleanup] and clears the flag; a second [cleanup()] in a row changes
    nothing more. *)
Theorem cleanup_spec (D : Type) (S : BasePlugin.Subclass D)
    (p : BasePlugin.t D) :
  BasePlugin.initialized_ (BasePlugin.cleanup p) = false ∧
  (BasePlugin.initialized_ p = false → BasePlugin.cleanup p = p) ∧
  (BasePlugin.initialized_ p = true →
   BasePlugin.cleanup p
   = BasePlugin.set_initialized false (BasePlugin.doCleanup p)) ∧
  BasePlugin.cleanup (BasePlugin.cleanup p) = BasePlugin.cleanup p.
Proof.
  unfold BasePlugin.cleanup.
  destruct (BasePlugin.initialized_ p) eqn:Hinit; simpl.
  - repeat split; done.
  - rewrite Hinit. repeat split; done.
Qed.

(** ** Wiring components *)

(** X13.  A component without terminals that is connected to a node [n0] and
    then to a node [n1] has exactly these two terminals, in this order;
    each node has the component as its newest back-reference; and a
    Resistor wired this way reads [(v(n0) - v(n1)) / R] after one
    [simulate]. *)
Theorem connect_twice_then_simulate (exp : float → float) (st : Store)
    (p n0 n1 : nat) (c : Component.t) (node0 node1 : Node.t) (dt : float) :
  component_objs st !! p = Some c →
  Component.nodes_ c = [] →
  node_objs st !! n0 = Some node0 →
  node_objs st !! n1 = Some node1 →
  n0 ≠ n1 →
  ∃ st2 c2,
    (st1 ← connect p n0 st; connect p n1 st1) = Some st2 ∧
    component_objs st2 !! p = Some c2 ∧
    Component.nodes_ c2 = [n0; n1] ∧
    Component.id_ c2 = Component.id_ c ∧
    Component.self_ c2 = Component.self_ c ∧
    node_objs st2 !! n0 = Some (Node.addComponent p node0) ∧
    node_objs st2 !! n1 = Some (Node.addComponent p node1) ∧
    (∀ r, Component.self_ c = Component.IsResistor r →
       ∃ st3 c3, simulate_at exp dt p st2 = Some st3 ∧
         component_objs st3 !! p = Some c3 ∧
         Component.getCurrentValue c3
         = ((Node.getVoltage node0 - Node.getVoltage node1)
            / Resistor.getResistance r)%float).
Proof.
  intros Hc Hnil Hn0 Hn1 Hne.
  unfold connect. rewrite Hc, Hn0. simpl.
  rewrite lookup_insert_eq. rewrite lookup_insert_ne by congruence. rewrite Hn1.
  simpl. rewrite Hnil. simpl.
  eexists _, _. split; [reflexivity|]. simpl.
  rewrite lookup_insert_eq.
  split; [reflexivity|]. split; [reflexivity|]. split; [reflexivity|].
  split; [reflexivity|].
  split; [by rewrite lookup_insert_ne, lookup_insert_eq by congruence|].
  split; [by rewrite lookup_insert_eq|].
  intros r Hr. unfold simulate_at. simpl. rewrite lookup_insert_eq. simpl.
  unfold Component.simulate. simpl. rewrite Hr. simpl.
  unfold Resistor.simulate. simpl.
  unfold terminal_voltage. simpl.
  rewrite (lookup_insert_ne _ n1 n0) by congruence.
  rewrite !lookup_insert_eq. simpl.
  eexists _, _. split; [reflexivity|]. simpl. rewrite lookup_insert_eq.
  split; [reflexivity|]. reflexivity.
Qed.

Lemma connect_twice_then_simulate_witness :
  ∃ st2 st3 c3,
    (st1 ← connect 10 1 (mkStore two_nodes
              {[10 := Component.new
                        (Component.IsResistor (Resistor.new 1000%float))]});
     connect 10 2 st1) = Some st2 ∧
    simulate_at (λ x, x) 1e-6%float 10 st2 = Some st3 ∧
    component_objs st3 !! 10 = Some c3 ∧
    Component.getCurrentValue c3 = ((5 - 0) / 1000)%float.
Proof.
  destruct (connect_twice_then_simulate (λ x, x)
              (mkStore two_nodes
                 {[10 := Component.new
                           (Component.IsResistor (Resistor.new 1000%float))]})
              10 1 2
              (Component.new (Component.IsResistor (Resistor.new 1000%float)))
              (Node.setVoltage 5%float (Node.new "N1")) (Node.new "N2")
              1e-6%float)
    as (st2 & c2 & Hwire & _ & _ & _ & _ & _ & _ & Hsim);
    [reflexivity | reflexivity | reflexivity | reflexivity | done |].
  destruct (Hsim (Resistor.new 1000%float) eq_refl)
    as (st3 & c3 & Hrun & Hc3 & Hcur).
  exists st2, st3, c3. done.
Defined.

(** X14.  Terminals beyond the second are ignored: the new state of a component
    with terminals [p0 :: p1 :: rest] is the one it gets with terminals
    [[p0; p1]], whatever [rest] holds. *)
Theorem extra_terminals_ignored (exp : float → float)
    (mem : gmap nat Node.t) (dt : float) (id : string) (p0 p1 : nat)
    (rest : list nat) (d : Component.dyn) :
  Component.self_ <$>
    Component.simulate exp mem dt (Component.make id (p0 :: p1 :: rest) d)
  = Component.self_ <$>
      Component.simulate exp mem dt (Component.make id [p0; p1] d).
Proof.
  unfold Component.simulate. simpl.
  destruct d as [r|k|l|d]; simpl;
    unfold Resistor.simulate, Capacitor.simulate, Inductor.simulate,
      Diode.simulate, terminal_voltage; simpl;
    destruct (mem !! p0) as [n0|]; simpl; try reflexivity;
    destruct (mem !! p1) as [n1|]; simpl; try reflexivity.
  by destruct (Diode.forward_voltage_ d <? _)%float.
Qed.

(** ** Update laws of the plugin components *)

(** X15.  Inductor: [simulate(dt)] adds [dv * dt / L] to the current and stores
    [dv]; [getCurrentValue()] is the current. *)
Theorem inductor_update_law (exp : float → float) (mem : gmap nat Node.t)
    (dt : float) (c : Component.t) (l : Inductor.t) (p0 p1 : nat)
    (n0 n1 : Node.t) :
  Component.self_ c = Component.IsInductor l →
  Component.nodes_ c !! 0 = Some p0 →
  Component.nodes_ c !! 1 = Some p1 →
  mem !! p0 = Some n0 →
  mem !! p1 = Some n1 →
  let dv := (Node.getVoltage n0 - Node.getVoltage n1)%float in
  ∃ c' l', Component.simulate exp mem dt c = Some c' ∧
    Component.self_ c' = Component.IsInductor l' ∧
    Inductor.current_ l'
    = (Inductor.current_ l + dv * dt / Inductor.inductance_ l)%float ∧
    Inductor.voltage_ l' = dv ∧
    Inductor.inductance_ l' = Inductor.inductance_ l ∧
    Component.getCurrentValue c' = Inductor.current_ l'.
Proof.
  intros Hl H0 H1 Hn0 Hn1 dv.
  unfold Component.simulate, Inductor.simulate. rewrite Hl.
  destruct (decide (2 ≤ length (Component.nodes_ c))) as [_|Hlen].
  - rewrite (terminal_voltage_Some _ _ _ _ _ H0 Hn0).
    rewrite (terminal_voltage_Some _ _ _ _ _ H1 Hn1). simpl.
    eexists _, _. split; [reflexivity|]. done.
  - destruct Hlen. eapply two_terminals; eassumption.
Qed.

Lemma inductor_update_law_witness :
  ∃ c' l', Component.simulate (λ x, x) two_nodes 1e-6%float
             (attached (Component.IsInductor (Inductor.new 1e-3%float)))
           = Some c' ∧
    Component.self_ c' = Component.IsInductor l' ∧
    Inductor.current_ l' = (0 + (5 - 0) * 1e-6 / 1e-3)%float ∧
    Inductor.voltage_ l' = 5%float ∧
    Inductor.inductance_ l' = 1e-3%float ∧
    Component.getCurrentValue c' = Inductor.current_ l'.
Proof.
  exact (inductor_update_law (λ x, x) two_nodes 1e-6%float
           (attached (Component.IsInductor (Inductor.new 1e-3%float)))
           (Inductor.new 1e-3%float) 1 2
           (Node.setVoltage 5%float (Node.new "N1")) (Node.new "N2")
           eq_refl eq_refl eq_refl eq_refl eq_refl).
Defined.

(** X16.  Diode: with [dv > forward_voltage_] the current becomes
    [1e-12 * (exp(dv / 0.026) - 1)]; otherwise (also when the comparison is
    false because [dv] or the threshold is NaN) it becomes [-1e-12]; the
    threshold is kept and [getCurrentValue()] is the current. *)
Theorem diode_update_law (exp : float → float) (mem : gmap nat Node.t)
    (dt : float) (c : Component.t) (d : Diode.t) (p0 p1 : nat)
    (n0 n1 : Node.t) :
  Component.self_ c = Component.IsDiode d →
  Component.nodes_ c !! 0 = Some p0 →
  Component.nodes_ c !! 1 = Some p1 →
  mem !! p0 = Some n0 →
  mem !! p1 = Some n1 →
  let dv := (Node.getVoltage n0 - Node.getVoltage n1)%float in
  ∃ c' d', Component.simulate exp mem dt c = Some c' ∧
    Component.self_ c' = Component.IsDiode d' ∧
    Diode.forward_voltage_ d' = Diode.forward_voltage_ d ∧
    Component.getCurrentValue c' = Diode.current_ d' ∧
    Diode.current_ d'
    = if (Diode.forward_voltage_ d <? dv)%float
      then (1e-12 * (exp (dv / 0.026) - 1))%float
      else (- 1e-12)%float.
Proof.
  intros Hd H0 H1 Hn0 Hn1 dv.
  unfold Component.simulate, Diode.simulate. rewrite Hd.
  destruct (decide (2 ≤ length (Component.nodes_ c))) as [_|Hlen].
  - rewrite (terminal_voltage_Some _ _ _ _ _ H0 Hn0).
    rewrite (terminal_voltage_Some _ _ _ _ _ H1 Hn1). simpl.
    fold dv. destruct (Diode.forward_voltage_ d <? dv)%float; simpl;
      eexists _, _; (split; [reflexivity|]); done.
  - destruct Hlen. eapply two_terminals; eassumption.
Qed.

Lemma diode_update_law_witness :
  (∃ c' d', Component.simulate (λ x, x) two_nodes 1e-6%float
              (attached (Component.IsDiode (Diode.new 0.7%float)))
            = Some c' ∧
     Component.self_ c' = Component.IsDiode d' ∧
     Diode.forward_voltage_ d' = 0.7%float ∧
     Component.getCurrentValue c' = Diode.current_ d' ∧
     Diode.current_ d' = (1e-12 * (5 / 0.026 - 1))%float) ∧
  (∃ c' d', Component.simulate (λ x, x) two_nodes 1e-6%float
              (attached (Component.IsDiode (Diode.new 5%float)))
            = Some c' ∧
     Component.self_ c' = Component.IsDiode d' ∧
     Diode.forward_voltage_ d' = 5%float ∧
     Component.getCurrentValue c' = Diode.current_ d' ∧
     Diode.current_ d' = (- 1e-12)%float).
Proof.
  split.
  - exact (diode_update_law (λ x, x) two_nodes 1e-6%float
             (attached (Component.IsDiode (Diode.new 0.7%float)))
             (Diode.new 0.7%float) 1 2
             (Node.setVoltage 5%float (Node.new "N1")) (Node.new "N2")
             eq_refl eq_refl eq_refl eq_refl eq_refl).
  - exact (diode_update_law (λ x, x) two_nodes 1e-6%float
             (attached (Component.IsDiode (Diode.new 5%float)))
             (Diode.new 5%float) 1 2
             (Node.setVoltage 5%float (Node.new "N1")) (Node.new "N2")
             eq_refl eq_refl eq_refl eq_refl eq_refl).
Defined.

(** ** What a pass over the components changes *)

Lemma Component_simulate_keeps exp mem dt c c' :
  Component.simulate exp mem dt c = Some c' →
  Component.id_ c' = Component.id_ c ∧
  Component.nodes_ c' = Component.nodes_ c ∧
  Component.getType c' = Component.getType c.
Proof.
  unfold Component.simulate, Component.getType.
  destruct (Component.self_ c) as [r|k|l|d] eqn:Hself; simpl;
    [destruct (Resistor.simulate _ _ _ _)
    |destruct (Capacitor.simulate _ _ _ _)
    |destruct (Inductor.simulate _ _ _ _)
    |destruct (Diode.simulate _ _ _ _ _)]; simpl; [|done| |done| |done| |done];
    by intros [= <-].
Qed.

Lemma simulate_at_keeps exp dt p st st' q c :
  simulate_at exp dt p st = Some st' →
  component_objs st !! q = Some c →
  ∃ c', component_objs st' !! q = Some c' ∧
    Component.id_ c' = Component.id_ c ∧
    Component.nodes_ c' = Component.nodes_ c ∧
    Component.getType c' = Component.getType c ∧
    (q ≠ p → c' = c).
Proof.
  unfold simulate_at. intros H Hq.
  destruct (component_objs st !! p) as [cp|] eqn:Hp; [|done]. simpl in H.
  destruct (Component.simulate exp (node_objs st) dt cp) as [cp'|] eqn:Hs;
    [|done].
  injection H as <-. simpl.
  destruct (decide (q = p)) as [->|Hne].
  - rewrite lookup_insert_eq. rewrite Hp in Hq. injection Hq as <-.
    apply Component_simulate_keeps in Hs as (? & ? & ?).
    exists cp'. done.
  - rewrite lookup_insert_ne by done. exists c. done.
Qed.

Lemma simulate_all_keeps exp dt items st st' q c :
  Circuit.simulate_all exp dt items st = Some st' →
  component_objs st !! q = Some c →
  ∃ c', component_objs st' !! q = Some c' ∧
    Component.id_ c' = Component.id_ c ∧
    Component.nodes_ c' = Component.nodes_ c ∧
    Component.getType c' = Component.getType c ∧
    (q ∉ items.*2 → c' = c).
Proof.
  revert st c. induction items as [|[id p] items IH]; intros st c H Hq.
  - injection H as <-. exists c. done.
  - cbn [Circuit.simulate_all] in H.
    destruct (simulate_at exp dt p st) as [st1|] eqn:H1; [|done].
    cbn [mbind option_bind] in H.
    destruct (simulate_at_keeps _ _ _ _ _ _ _ H1 Hq)
      as (c1 & Hq1 & Hid1 & Hn1 & Ht1 & Hsame1).
    destruct (IH _ _ H Hq1) as (c' & Hq' & Hid & Hn & Ht & Hsame).
    exists c'. split; [done|]. split; [congruence|]. split; [congruence|].
    split; [congruence|].
    change (((id, p) :: items).*2) with (p :: items.*2).
    intros Hnin. apply not_elem_of_cons in Hnin as [Hne Hnin].
    rewrite Hsame by done. by apply Hsame1.
Qed.

Lemma simulate_loop_keeps exp fuel self duration timestep time calls st st'
    calls' q c :
  Circuit.simulate_loop exp fuel self duration timestep time calls st
    = Returned st' calls' →
  component_objs st !! q = Some c →
  ∃ c', component_objs st' !! q = Some c' ∧
    Component.id_ c' = Component.id_ c ∧
    Component.nodes_ c' = Component.nodes_ c ∧
    Component.getType c' = Component.getType c ∧
    (q ∉ (std_map_items (Circuit.components_ self)).*2 → c' = c).
Proof.
  revert time calls st c.
  induction fuel as [|fuel IH]; intros time calls st c H Hq;
    cbn [Circuit.simulate_loop] in H;
    (destruct (time <? duration)%float;
     [|injection H as <- _; exists c; done]); [done|].
  destruct (Circuit.simulate_all exp timestep
              (std_map_items (Circuit.components_ self)) st) as [st1|] eqn:H1;
    [|done].
  destruct (simulate_all_keeps _ _ _ _ _ _ _ H1 Hq)
    as (c1 & Hq1 & Hid1 & Hn1 & Ht1 & Hsame1).
  destruct (IH _ _ _ _ H Hq1) as (c' & Hq' & Hid & Hn & Ht & Hsame).
  exists c'. split; [done|]. split; [congruence|]. split; [congruence|].
  split; [congruence|]. intros Hnin. rewrite Hsame by done. by apply Hsame1.
Qed.

(** X17.  When [Circuit::simulate] returns, every component object still
    exists with the id, the terminals and the type it had, and a component
    the circuit does not own is exactly as it was. *)
Theorem simulate_changes_only_owned_state (exp : float → float)
    (fuel : nat) (self : Circuit.t) (duration timestep : float)
    (st st' : Store) (calls : nat) :
  Circuit.simulate exp fuel self duration timestep st = Returned st' calls →
  ∀ q c, component_objs st !! q = Some c →
    ∃ c', component_objs st' !! q = Some c' ∧
      Component.id_ c' = Component.id_ c ∧
      Component.nodes_ c' = Component.nodes_ c ∧
      Component.getType c' = Component.getType c ∧
      ((∀ id, Circuit.getComponent id self ≠ Some q) → c' = c).
Proof.
  intros H q c Hq.
  destruct (simulate_loop_keeps _ _ _ _ _ _ _ _ _ _ _ _ H Hq)
    as (c' & Hq' & Hid & Hn & Ht & Hsame).
  exists c'. split; [done|]. split; [done|]. split; [done|].
  split; [done|]. intros Hnot. apply Hsame.
  intros Hin. apply list_elem_of_fmap in Hin as ([id p] & -> & Hin).
  apply elem_of_std_map_items in Hin. by apply (Hnot id).
Qed.

Lemma simulate_changes_only_owned_state_witness :
  let st := set_component 12
              (Component.make "L9" [1; 3]
                 (Component.IsInductor (Inductor.new 1e-3%float))) rc_store in
  ∃ st' c10,
    Circuit.simulate (λ x, x) 10 rc_circuit 3e-6%float 1e-6%float st
      = Returned st' 6 ∧
    component_objs st' !! 12 = component_objs st !! 12 ∧
    component_objs st' !! 10 = Some c10 ∧
    Component.id_ c10 = "R1" ∧ Component.nodes_ c10 = [1; 2] ∧
    Component.getType c10 = "Resistor".
Proof.
  intros st.
  destruct (Circuit.simulate (λ x, x) 10 rc_circuit 3e-6%float 1e-6%float st)
    as [st' calls| |] eqn:Hrun; [|vm_compute in Hrun; discriminate..].
  assert (calls = 6) as -> by (vm_compute in Hrun; by injection Hrun).
  pose proof (simulate_changes_only_owned_state _ _ _ _ _ _ _ _ Hrun)
    as Hkeep.
  destruct (Hkeep 12 (Component.make "L9" [1; 3]
                        (Component.IsInductor (Inductor.new 1e-3%float))))
    as (c12 & H12 & _ & _ & _ & Hsame); [reflexivity|].
  destruct (Hkeep 10 (Component.make "R1" [1; 2]
                        (Component.IsResistor (Resistor.new 1000%float))))
    as (c10 & H10 & Hid & Hn & Ht & _); [reflexivity|].
  exists st', c10. split; [done|]. split.
  - rewrite H12, Hsame; [reflexivity|].
    intros id Hid'. unfold Circuit.getComponent, rc_circuit in Hid'.
    simpl in Hid'.
    repeat (apply lookup_insert_Some in Hid' as [[_ [=]]|[_ Hid']]).
    by rewrite lookup_empty in Hid'.
  - done.
Defined.

(** ** The order of the components within a pass *)

Lemma simulate_at_comm exp dt p q st :
  (st1 ← simulate_at exp dt p st; simulate_at exp dt q st1)
  = (st1 ← simulate_at exp dt q st; simulate_at exp dt p st1).
Proof.
  destruct (decide (p = q)) as [->|Hne]; [done|].
  unfold simulate_at.
  destruct (component_objs st !! p) as [cp|] eqn:Hp;
    destruct (component_objs st !! q) as [cq|] eqn:Hq; simpl.
  - destruct (Component.simulate exp (node_objs st) dt cp) as [cp'|] eqn:Hsp;
      destruct (Component.simulate exp (node_objs st) dt cq) as [cq'|] eqn:Hsq;
      simpl; rewrite ?lookup_insert_ne by done; rewrite ?Hp, ?Hq; simpl;
      rewrite ?Hsp, ?Hsq; simpl; try done.
    unfold set_component. simpl. f_equal. f_equal.
    by apply insert_insert_ne.
  - destruct (Component.simulate exp (node_objs st) dt cp) as [cp'|]; simpl;
      [|done]. rewrite lookup_insert_ne by done. by rewrite Hq.
  - destruct (Component.simulate exp (node_objs st) dt cq) as [cq'|]; simpl;
      [|done]. rewrite lookup_insert_ne by done. by rewrite Hp.
  - done.
Qed.

(** X18.  One pass gives the same store in whatever order the components are
    visited: each component reads only nodes and writes only itself. *)
Theorem simulate_all_order_irrelevant (exp : float → float) (dt : float)
    (items items' : list (string * nat)) (st : Store) :
  items ≡ₚ items' →
  Circuit.simulate_all exp dt items st
  = Circuit.simulate_all exp dt items' st.
Proof.
  intros Hperm. revert st.
  induction Hperm as [|[id p] l l' _ IH|[id p] [id' q] l|l l' l'' _ IH _ IH'];
    intros st.
  - done.
  - simpl. destruct (simulate_at exp dt p st); simpl; [apply IH|done].
  - cbn [Circuit.simulate_all].
    pose proof (simulate_at_comm exp dt q p st) as Hcomm.
    destruct (simulate_at exp dt q st) as [s1|];
      destruct (simulate_at exp dt p st) as [s2|]; simpl in *.
    + destruct (simulate_at exp dt p s1) as [s3|];
        destruct (simulate_at exp dt q s2) as [s4|]; simpl; try done.
      by injection Hcomm as ->.
    + by destruct (simulate_at exp dt p s1).
    + by destruct (simulate_at exp dt q s2).
    + done.
  - by rewrite IH, IH'.
Qed.

Lemma simulate_all_order_irrelevant_witness :
  Circuit.simulate_all (λ x, x) 1e-6%float [("C1", 11); ("R1", 10)] rc_store
  = Circuit.simulate_all (λ x, x) 1e-6%float [("R1", 10); ("C1", 11)]
      rc_store.
Proof.
  apply simulate_all_order_irrelevant. apply perm_swap.
Defined.

(** ** Memoryless components settle in one pass *)

Lemma memoryless_settled exp mem dt dt' c c' :
  memoryless c →
  Component.simulate exp mem dt c = Some c' →
  memoryless c' ∧ Component.simulate exp mem dt' c' = Some c'.
Proof.
  unfold memoryless, Component.simulate.
  destruct c as [id nodes [r|k|l|d]]; simpl; try done; intros _.
  - unfold Resistor.simulate.
    destruct (decide (2 ≤ length nodes)) as [Hlen|Hlen]; simpl.
    + destruct (terminal_voltage mem nodes 0) as [v0|] eqn:H0; [|done].
      destruct (terminal_voltage mem nodes 1) as [v1|] eqn:H1; [|done].
      simpl. intros [= <-]. simpl. rewrite H0, H1.
      by rewrite decide_True.
    + intros [= <-]. simpl. rewrite decide_False by done. by destruct r.
  - unfold Diode.simulate.
    destruct (decide (2 ≤ length nodes)) as [Hlen|Hlen]; simpl.
    + destruct (terminal_voltage mem nodes 0) as [v0|] eqn:H0; [|done].
      destruct (terminal_voltage mem nodes 1) as [v1|] eqn:H1; [|done].
      simpl.
      destruct (Diode.forward_voltage_ d <? v0 - v1)%float eqn:Hcmp; simpl;
        intros [= <-]; simpl; rewrite H0, H1; rewrite decide_True by done;
        simpl; by rewrite Hcmp.
    + intros [= <-]. simpl. rewrite decide_False by done. by destruct d.
Qed.

Lemma simulate_at_settles exp dt dt' p st st' :
  (∀ c, component_objs st !! p = Some c → memoryless c) →
  simulate_at exp dt p st = Some st' →
  settled exp dt' st' p ∧
  (∀ q, settled exp dt' st q → settled exp dt' st' q) ∧
  (∀ q c, component_objs st' !! q = Some c → ¬ memoryless c →
     component_objs st !! q = Some c).
Proof.
  unfold simulate_at, settled. intros Hm H.
  destruct (component_objs st !! p) as [c|] eqn:Hp; [|done]. simpl in H.
  destruct (Component.simulate exp (node_objs st) dt c) as [c'|] eqn:Hs;
    [|done].
  injection H as <-. simpl.
  destruct (memoryless_settled exp (node_objs st) dt dt' c c' (Hm c eq_refl) Hs)
    as [Hm' Hfix].
  split; [|split].
  - exists c'. by rewrite lookup_insert_eq.
  - intros q (cq & Hq & Hfixq). destruct (decide (q = p)) as [->|Hne].
    + exists c'. by rewrite lookup_insert_eq.
    + exists cq. by rewrite lookup_insert_ne.
  - intros q cq Hq Hnm. destruct (decide (q = p)) as [->|Hne].
    + rewrite lookup_insert_eq in Hq. by injection Hq as <-.
    + by rewrite lookup_insert_ne in Hq.
Qed.

Lemma simulate_all_settles exp dt dt' items st st' :
  (∀ p c, p ∈ items.*2 → component_objs st !! p = Some c → memoryless c) →
  Circuit.simulate_all exp dt items st = Some st' →
  (∀ p, p ∈ items.*2 → settled exp dt' st' p) ∧
  (∀ q, settled exp dt' st q → settled exp dt' st' q).
Proof.
  revert st. induction items as [|[id p] items IH]; intros st Hm H.
  - injection H as <-. split; [by intros p ?%elem_of_nil|done].
  - cbn [Circuit.simulate_all] in H.
    destruct (simulate_at exp dt p st) as [st1|] eqn:H1; [|done].
    cbn [mbind option_bind] in H.
    change (((id, p) :: items).*2) with (p :: items.*2) in *.
    destruct (simulate_at_settles exp dt dt' p st st1) as (Hp & Hkeep & Hnm);
      [intros c; apply Hm; left|done|].
    destruct (IH st1) as [Hall Hkeep']; [|done|].
    { intros q c Hq Hc.
      destruct (decide (memoryless c)) as [|Hn]; [done|].
      apply (Hm q c); [by right|]. by apply Hnm. }
    split.
    + intros q [->|Hq]%elem_of_cons; [by apply Hkeep'|by apply Hall].
    + intros q Hq. by apply Hkeep', Hkeep.
Qed.

Lemma simulate_all_settled exp dt items st :
  (∀ p, p ∈ items.*2 → settled exp dt st p) →
  Circuit.simulate_all exp dt items st = Some st.
Proof.
  induction items as [|[id p] items IH]; intros Hs; [done|].
  change (((id, p) :: items).*2) with (p :: items.*2) in *.
  cbn [Circuit.simulate_all]. unfold simulate_at.
  destruct (Hs p) as (c & Hc & Hfix); [left|].
  rewrite Hc. simpl. rewrite Hfix. simpl.
  assert (set_component p c st = st) as ->.
  { destruct st as [nodes comps]. unfold set_component. simpl in *.
    by rewrite insert_id. }
  apply IH. intros q Hq. apply Hs. by right.
Qed.

(** X19.  In a circuit whose components are all Resistors and Diodes, a pass
    brings the store to a state that a further pass, with any timestep,
    leaves as it is: these components depend on the node voltages only,
    not on their previous current or on the timestep. *)
Theorem memoryless_pass_is_final (exp : float → float) (dt dt' : float)
    (self : Circuit.t) (st st' : Store) :
  (∀ id p c, Circuit.getComponent id self = Some p →
     component_objs st !! p = Some c → memoryless c) →
  Circuit.simulate_all exp dt (std_map_items (Circuit.components_ self)) st
    = Some st' →
  Circuit.simulate_all exp dt' (std_map_items (Circuit.components_ self)) st'
    = Some st'.
Proof.
  intros Hm Hrun. apply simulate_all_settled.
  apply (simulate_all_settles exp dt dt' _ st st'); [|done].
  intros p c Hp Hc. apply list_elem_of_fmap in Hp as ([id p'] & -> & Hin).
  apply elem_of_std_map_items in Hin. by apply (Hm id p' c).
Qed.

Lemma memoryless_pass_is_final_witness :
  let st := mkStore (node_objs rc_store)
              (<[10 := Component.make "R1" [1; 2]
                         (Component.IsResistor (Resistor.new 1000%float))]>
                 (<[11 := Component.make "D1" [1; 3]
                            (Component.IsDiode (Diode.new 0.7%float))]> ∅)) in
  let c := Circuit.make "RD" (<["R1" := 10]> (<["D1" := 11]> ∅)) ∅ in
  ∃ st', Circuit.simulate_all (λ x, x) 1e-6%float
           (std_map_items (Circuit.components_ c)) st = Some st' ∧
         (Component.getCurrentValue <$> component_objs st' !! 10)
           = Some 0.005%float ∧
         Circuit.simulate_all (λ x, x) 0.5%float
           (std_map_items (Circuit.components_ c)) st' = Some st'.
Proof.
  intros st c.
  destruct (Circuit.simulate_all (λ x, x) 1e-6%float
              (std_map_items (Circuit.components_ c)) st)
    as [st'|] eqn:Hrun; [|vm_compute in Hrun; discriminate].
  exists st'. split; [reflexivity|]. split.
  - vm_compute in Hrun. injection Hrun as <-. vm_compute. reflexivity.
  - apply (memoryless_pass_is_final (λ x, x) 1e-6%float 0.5%float c
             st st'); [|exact Hrun].
    intros id p obj Hp Hc. unfold Circuit.getComponent, c in Hp.
    simpl in Hp.
    repeat (apply lookup_insert_Some in Hp as [[_ <-]|[_ Hp]];
            [vm_compute in Hc; by injection Hc as <-|]).
    by rewrite lookup_empty in Hp.
Defined.

(** ** Reset, once more *)

(** X20.  [reset()] on a circuit whose nodes are live: a second [reset()] changes
    nothing more, and a node the circuit does not own keeps its voltage. *)
Theorem reset_idempotent_and_local (c : Circuit.t) (st : Store) :
  (∀ id p, Circuit.getNode id c = Some p → is_Some (node_objs st !! p)) →
  ∃ st', Circuit.reset c st = Some st' ∧
    Circuit.reset c st' = Some st' ∧
    (∀ q, (∀ id, Circuit.getNode id c ≠ Some q) →
       node_objs st' !! q = node_objs st !! q).
Proof.
  intros Hlive. unfold Circuit.reset.
  set (items := std_map_items (Circuit.nodes_ c)).
  assert (Hitems : ∀ p, p ∈ items.*2 ↔ ∃ id, Circuit.getNode id c = Some p).
  { intros p. unfold items. rewrite list_elem_of_fmap. split.
    - intros ([id p'] & -> & Hin). exists id.
      by apply elem_of_std_map_items.
    - intros [id Hp]. exists (id, p). split; [done|].
      by apply elem_of_std_map_items. }
  destruct (reset_all_spec items st) as (st' & Hrun & Hcomp & Hnodes).
  { intros p [id Hp]%Hitems. by apply (Hlive id). }
  exists st'. split; [exact Hrun|]. split.
  - destruct (reset_all_spec items st') as (st'' & Hrun' & Hcomp' & Hnodes').
    { intros p Hp. rewrite Hnodes, decide_True by done.
      apply Hitems in Hp as [id Hp]. destruct (Hlive id p Hp) as [n ->].
      by eexists. }
    rewrite Hrun'. f_equal. destruct st' as [nodes' comps'],
      st'' as [nodes'' comps'']. simpl in *. f_equal; [|done].
    apply map_eq. intros p. rewrite Hnodes'.
    destruct (decide (p ∈ items.*2)) as [Hin|_]; [|done].
    rewrite Hnodes, decide_True by done.
    by destruct (node_objs st !! p).
  - intros q Hq. rewrite Hnodes, decide_False; [done|].
    intros [id Hin]%Hitems. by apply (Hq id).
Qed.

Lemma reset_idempotent_and_local_witness :
  let st := set_node 7 (Node.setVoltage 3.3%float (Node.new "PROBE"))
              rc_store in
  ∃ st', Circuit.reset rc_circuit st = Some st' ∧
    Circuit.reset rc_circuit st' = Some st' ∧
    (Node.getVoltage <$> node_objs st' !! 7) = Some 3.3%float.
Proof.
  intros st.
  destruct (reset_idempotent_and_local rc_circuit st)
    as (st' & Hrun & Hagain & Hlocal).
  { intros id p Hp. unfold Circuit.getNode, rc_circuit in Hp. simpl in Hp.
    repeat (apply lookup_insert_Some in Hp as [[_ <-]|[_ Hp]];
            [vm_compute; by eexists|]).
    by rewrite lookup_empty in Hp. }
  exists st'. split; [exact Hrun|]. split; [exact Hagain|].
  rewrite Hlocal; [reflexivity|].
  intros id Hp. unfold Circuit.getNode, rc_circuit in Hp. simpl in Hp.
  repeat (apply lookup_insert_Some in Hp as [[_ [=]]|[_ Hp]]).
  by rewrite lookup_empty in Hp.
Defined.

(** ** Looking up what was added *)

(** X21.  [addComponent] of a live object with a non-empty id makes
    [getComponent] of that id answer the object, and changes no other
    answer of [getComponent] and no answer of [getNode]; a circuit just
    constructed answers null to every lookup.  The same holds for
    [addNode] with the two collections exchanged. *)
Theorem add_then_lookup (st : Store) (c : Circuit.t) :
  (∀ name id, Circuit.getComponent id (Circuit.new name) = None ∧
              Circuit.getNode id (Circuit.new name) = None) ∧
  (∀ p obj, component_objs st !! p = Some obj →
     Component.getId obj ≠ "" →
     ∃ c', Circuit.addComponent (Some p) st c = Some c' ∧
       Circuit.getComponent (Component.getId obj) c' = Some p ∧
       (∀ id, id ≠ Component.getId obj →
          Circuit.getComponent id c' = Circuit.getComponent id c) ∧
       (∀ id, Circuit.getNode id c' = Circuit.getNode id c)) ∧
  (∀ p obj, node_objs st !! p = Some obj →
     Node.getId obj ≠ "" →
     ∃ c', Circuit.addNode (Some p) st c = Some c' ∧
       Circuit.getNode (Node.getId obj) c' = Some p ∧
       (∀ id, id ≠ Node.getId obj →
          Circuit.getNode id c' = Circuit.getNode id c) ∧
       (∀ id, Circuit.getComponent id c' = Circuit.getComponent id c)).
Proof.
  split; [|split].
  - intros name id. unfold Circuit.getComponent, Circuit.getNode. simpl.
    by rewrite !lookup_empty.
  - intros p obj Hp Hid. unfold Circuit.addComponent. rewrite Hp. simpl.
    rewrite decide_False by done. eexists. split; [reflexivity|].
    unfold Circuit.getComponent, Circuit.getNode. simpl.
    split; [apply lookup_insert_eq|]. split; [|done].
    intros id Hne. by rewrite lookup_insert_ne.
  - intros p obj Hp Hid. unfold Circuit.addNode. rewrite Hp. simpl.
    rewrite decide_False by done. eexists. split; [reflexivity|].
    unfold Circuit.getComponent, Circuit.getNode. simpl.
    split; [apply lookup_insert_eq|]. split; [|done].
    intros id Hne. by rewrite lookup_insert_ne.
Qed.

Lemma add_then_lookup_witness :
  ∃ c', Circuit.addComponent (Some 10) rc_store
          (Circuit.new "Test Circuit") = Some c' ∧
    Circuit.getComponent "R1" c' = Some 10 ∧
    Circuit.getComponent "C1" c' = None ∧
    Circuit.getNode "VCC" c' = None.
Proof.
  destruct (add_then_lookup rc_store (Circuit.new "Test Circuit"))
    as (Hnew & Hadd & _).
  destruct (Hadd 10 (Component.make "R1" [1; 2]
                       (Component.IsResistor (Resistor.new 1000%float))))
    as (c' & Hrun & Hget & Hother & Hnodes); [reflexivity|done|].
  exists c'. split; [exact Hrun|]. split; [exact Hget|]. split.
  - rewrite Hother by done. apply Hnew.
  - rewrite Hnodes. apply Hnew.
Defined.

(** ** A component needs an id before it can be added *)

(** X22.  A component as its constructor or the example plugin's factory makes
    it has an empty id, so [addComponent] leaves the circuit as it is;
    once [setId] gave it a non-empty id, [addComponent] registers it under
    that id. *)
Theorem new_component_needs_id (st : Store) (c : Circuit.t) (p : nat)
    (obj : Component.t) (id : string) :
  component_objs st !! p = Some obj →
  (∃ d, obj = Component.new d) ∨
  (∃ self type parameters,
     BasePlugin.createComponent (D := unit) self type parameters
     = Some obj) →
  id ≠ "" →
  Circuit.addComponent (Some p) st c = Some c ∧
  ∃ c', Circuit.addComponent (Some p)
          (set_component p (Component.setId id obj) st) c = Some c' ∧
        Circuit.getComponent id c' = Some p.
Proof.
  intros Hp Hnew Hid.
  assert (Hempty : Component.getId obj = "").
  { destruct Hnew as [[d ->]|(self & type & parameters & Hmade)]; [done|].
    simpl in Hmade.
    destruct (decide (type = "Inductor")); [by injection Hmade as <-|].
    destruct (decide (type = "Diode")); [by injection Hmade as <-|done]. }
  split.
  - unfold Circuit.addComponent. rewrite Hp. simpl.
    by rewrite decide_True.
  - unfold Circuit.addComponent. simpl. rewrite lookup_insert_eq. simpl.
    rewrite decide_False by done. eexists. split; [reflexivity|].
    unfold Circuit.getComponent. simpl. apply lookup_insert_eq.
Qed.

Lemma new_component_needs_id_witness :
  let obj := Component.new (Component.IsInductor (Inductor.new 1e-3%float)) in
  let st := set_component 12 obj rc_store in
  Circuit.addComponent (Some 12) st rc_circuit = Some rc_circuit ∧
  ∃ c', Circuit.addComponent (Some 12)
          (set_component 12 (Component.setId "L1" obj) st) rc_circuit
        = Some c' ∧
        Circuit.getComponent "L1" c' = Some 12.
Proof.
  intros obj st.
  apply (new_component_needs_id st rc_circuit 12 obj "L1");
    [reflexivity | | done].
  right. exists ExamplePlugin.new, "Inductor", ∅. reflexivity.
Defined.

(** ** The CPU fallback of the accelerator *)

Lemma length_resize {A : Type} n (value : A) v :
  length (CudaSimulationEngine.resize n value v) = n.
Proof.
  unfold CudaSimulationEngine.resize.
  rewrite length_app, length_take, length_replicate. lia.
Qed.

Lemma lookup_resize {A : Type} n (value : A) v i :
  i < n →
  CudaSimulationEngine.resize n value v !! i = Some (default value (v !! i)).
Proof.
  intros Hi. unfold CudaSimulationEngine.resize.
  destruct (decide (i < length v)) as [Hlt|Hge].
  - rewrite lookup_app_l by (rewrite length_take; lia).
    rewrite lookup_take_lt by done.
    by destruct (lookup_lt_is_Some_2 v i Hlt) as [x ->].
  - rewrite lookup_app_r by (rewrite length_take; lia).
    rewrite lookup_replicate_2 by (rewrite length_take; lia).
    by rewrite lookup_ge_None_2 by lia.
Qed.

Lemma simulate_loop_spec todo i voltages resistances currents :
  i + todo ≤ length resistances →
  i + todo ≤ length voltages →
  ∃ currents',
    CudaSimulationEngine.simulate_loop todo i voltages resistances currents
      = Some currents' ∧
    length currents' = length currents ∧
    ∀ k r v, resistances !! k = Some r → voltages !! k = Some v →
      currents' !! k =
        if decide (i ≤ k < i + todo ∧ k < length currents) then
          if (0 <? r)%float then Some (v / r)%float else currents !! k
        else currents !! k.
Proof.
  revert i currents. induction todo as [|todo IH]; intros i currents Hr Hv.
  - exists currents. split; [done|]. split; [done|].
    intros k r v _ _. rewrite decide_False; [done|lia].
  - cbn [CudaSimulationEngine.simulate_loop].
    destruct (lookup_lt_is_Some_2 resistances i) as [ri Hri]; [lia|].
    destruct (lookup_lt_is_Some_2 voltages i) as [vi Hvi]; [lia|].
    rewrite Hri. cbn [mbind option_bind].
    destruct (0 <? ri)%float eqn:Hpos.
    + rewrite Hvi. cbn [mbind option_bind].
      destruct (IH (S i) (<[i := (vi / ri)%float]> currents))
        as (cur' & Hrun & Hlen & Hspec); [lia..|].
      exists cur'. split; [done|]. rewrite length_insert in Hlen.
      split; [done|]. intros k r v Hk Hkv. rewrite (Hspec k r v Hk Hkv).
      rewrite length_insert.
      destruct (decide (k = i)) as [->|Hne].
      * rewrite decide_False by lia.
        rewrite Hri in Hk. injection Hk as <-.
        rewrite Hvi in Hkv. injection Hkv as <-. rewrite Hpos.
        destruct (decide (i ≤ i < i + S todo ∧ i < length currents))
          as [[_ Hlt]|Hout].
        -- by rewrite list_lookup_insert_eq.
        -- rewrite list_insert_ge by lia. done.
      * rewrite list_lookup_insert_ne by done.
        destruct (decide (S i ≤ k < S i + todo ∧ k < length currents));
          destruct (decide (i ≤ k < i + S todo ∧ k < length currents));
          try done; lia.
    + destruct (IH (S i) currents) as (cur' & Hrun & Hlen & Hspec); [lia..|].
      exists cur'. split; [done|]. split; [done|].
      intros k r v Hk Hkv. rewrite (Hspec k r v Hk Hkv).
      destruct (decide (k = i)) as [->|Hne].
      * rewrite decide_False by lia.
        rewrite Hri in Hk. injection Hk as <-. rewrite Hpos.
        by destruct (decide (i ≤ i < i + S todo ∧ i < length currents)).
      * destruct (decide (S i ≤ k < S i + todo ∧ k < length currents));
          destruct (decide (i ≤ k < i + S todo ∧ k < length currents));
          try done; lia.
Qed.

(** X23.  [simulateComponents] with [num_components] entries available in
    [voltages] and [resistances]: it answers true, [currents] has
    [num_components] entries, and entry [k] is [voltages[k] /
    resistances[k]] when [resistances[k] > 0]; otherwise (zero, negative or
    NaN resistance) it is what [currents] held at [k] before the call, or
    0.0 where [currents] was shorter.  A negative count throws. *)
Theorem simulateComponents_spec (voltages currents resistances : list float)
    (timestep : float) (num_components : Z) :
  ((num_components < 0)%Z →
   CudaSimulationEngine.simulateComponents voltages currents resistances
     timestep num_components = None) ∧
  ((0 ≤ num_components)%Z →
   Z.to_nat num_components ≤ length voltages →
   Z.to_nat num_components ≤ length resistances →
   ∃ currents',
     CudaSimulationEngine.simulateComponents voltages currents resistances
       timestep num_components = Some (true, currents') ∧
     length currents' = Z.to_nat num_components ∧
     ∀ k r v, k < Z.to_nat num_components →
       resistances !! k = Some r → voltages !! k = Some v →
       currents' !! k =
         Some (if (0 <? r)%float then (v / r)%float
               else default 0%float (currents !! k))).
Proof.
  unfold CudaSimulationEngine.simulateComponents. split.
  - intros Hneg. apply Z.ltb_lt in Hneg. by rewrite Hneg.
  - intros Hnn Hv Hr.
    assert ((num_components <? 0)%Z = false) as -> by lia.
    set (n := Z.to_nat num_components) in *.
    destruct (simulate_loop_spec n 0 voltages resistances
                (CudaSimulationEngine.resize n 0%float currents))
      as (cur' & Hrun & Hlen & Hspec); [lia..|].
    rewrite Hrun. simpl. exists cur'. split; [done|].
    rewrite length_resize in Hlen. split; [done|].
    intros k r v Hk Hkr Hkv. rewrite (Hspec k r v Hkr Hkv).
    rewrite length_resize. rewrite decide_True by lia.
    rewrite lookup_resize by done. by destruct (0 <? r)%float.
Qed.

Lemma simulateComponents_spec_witness :
  CudaSimulationEngine.simulateComponents [5; 3; 1]%float [9]%float
    [1000; 0; -2]%float 1e-6%float (-1) = None ∧
  ∃ currents',
    CudaSimulationEngine.simulateComponents [5; 3; 1]%float [9; 8]%float
      [1000; 0; -2]%float 1e-6%float 3 = Some (true, currents') ∧
    currents' !! 0 = Some (5 / 1000)%float ∧
    currents' !! 1 = Some 8%float ∧
    currents' !! 2 = Some 0%float.
Proof.
  destruct (simulateComponents_spec [5; 3; 1]%float [9]%float
              [1000; 0; -2]%float 1e-6%float (-1)) as [Hneg _].
  split; [apply Hneg; lia|].
  destruct (simulateComponents_spec [5; 3; 1]%float [9; 8]%float
              [1000; 0; -2]%float 1e-6%float 3) as [_ Hrun].
  destruct Hrun as (cur' & Hrun & _ & Hspec); [lia|simpl; lia|simpl; lia|].
  exists cur'. split; [exact Hrun|].
  split; [|split].
  - apply (Hspec 0 1000%float 5%float); [simpl; lia|done|done].
  - apply (Hspec 1 0%float 3%float); [simpl; lia|done|done].
  - apply (Hspec 2 (-2)%float 1%float); [simpl; lia|done|done].
Defined.

Lemma row_sum_total row solution i todo j sum :
  j + todo ≤ length row → j + todo ≤ length solution →
  is_Some (CudaSimulationEngine.row_sum row solution i todo j sum).
Proof.
  revert j sum. induction todo as [|todo IH]; intros j sum Hrow Hsol.
  - by eexists.
  - cbn [CudaSimulationEngine.row_sum].
    destruct (decide (i ≠ j)); [|apply IH; lia].
    destruct (lookup_lt_is_Some_2 row j) as [m ->]; [lia|].
    destruct (lookup_lt_is_Some_2 solution j) as [x ->]; [lia|].
    cbn [mbind option_bind]. apply IH; lia.
Qed.

Lemma sweep_spec matrix rhs todo i solution :
  length matrix ≤ length rhs →
  (∀ row, row ∈ matrix → length matrix ≤ length row) →
  length solution = length matrix →
  i + todo ≤ length matrix →
  ∃ solution',
    CudaSimulationEngine.sweep matrix rhs (length matrix) todo i solution
      = Some solution' ∧
    length solution' = length matrix ∧
    ∀ k row d, matrix !! k = Some row → row !! k = Some d →
      (d =? 0)%float = true → solution' !! k = solution !! k.
Proof.
  intros Hrhs Hrows. revert i solution.
  induction todo as [|todo IH]; intros i solution Hlen Hi.
  - exists solution. by repeat split.
  - cbn [CudaSimulationEngine.sweep].
    destruct (lookup_lt_is_Some_2 rhs i) as [b ->]; [lia|].
    destruct (lookup_lt_is_Some_2 matrix i) as [row Hrow]; [lia|].
    rewrite Hrow. cbn [mbind option_bind].
    pose proof (Hrows row (list_elem_of_lookup_2 _ _ _ Hrow)) as Hwide.
    destruct (row_sum_total row solution i (length matrix) 0 b)
      as [sum ->]; [lia..|].
    destruct (lookup_lt_is_Some_2 row i) as [d Hd]; [lia|].
    rewrite Hd. cbn [mbind option_bind].
    destruct (d =? 0)%float eqn:Hzero; cbn [negb].
    + destruct (IH (S i) solution) as (s' & Hrun & Hlen' & Hkeep); [done|lia|].
      exists s'. by repeat split.
    + destruct (IH (S i) (<[i := (sum / d)%float]> solution))
        as (s' & Hrun & Hlen' & Hkeep); [by rewrite length_insert|lia|].
      exists s'. split; [done|]. split; [done|].
      intros k row' d' Hk Hd' Hz. rewrite (Hkeep k row' d' Hk Hd' Hz).
      destruct (decide (k = i)) as [->|Hne].
      * rewrite Hrow in Hk. injection Hk as <-. congruence.
      * by rewrite list_lookup_insert_ne.
Qed.

Lemma iterate_spec matrix rhs iterations solution :
  length matrix ≤ length rhs →
  (∀ row, row ∈ matrix → length matrix ≤ length row) →
  length solution = length matrix →
  ∃ solution',
    CudaSimulationEngine.iterate iterations matrix rhs (length matrix)
      solution = Some solution' ∧
    length solution' = length matrix ∧
    ∀ k row d, matrix !! k = Some row → row !! k = Some d →
      (d =? 0)%float = true → solution' !! k = solution !! k.
Proof.
  intros Hrhs Hrows. revert solution.
  induction iterations as [|it IH]; intros solution Hlen.
  - exists solution. by repeat split.
  - cbn [CudaSimulationEngine.iterate].
    destruct (sweep_spec matrix rhs (length matrix) 0 solution)
      as (s1 & -> & Hlen1 & Hkeep1); [done..|lia|].
    cbn [mbind option_bind].
    destruct (IH s1 Hlen1) as (s2 & Hrun & Hlen2 & Hkeep2).
    exists s2. split; [done|]. split; [done|].
    intros k row d Hk Hd Hz.
    by rewrite (Hkeep2 k row d Hk Hd Hz), (Hkeep1 k row d Hk Hd Hz).
Qed.

(** X24.  [solveLinearSystem] on [n] rows of at least [n] coefficients each and a
    right-hand side of at least [n] entries: it answers true whatever the
    coefficients are (nothing checks convergence), [solution] has [n]
    entries, and every unknown whose diagonal coefficient compares equal to
    zero is left at its value on entry, 0.0 where [solution] was shorter:
    such a row is skipped, not reported. *)
Theorem solveLinearSystem_spec (matrix : list (list float))
    (rhs solution : list float) :
  length matrix ≤ length rhs →
  (∀ row, row ∈ matrix → length matrix ≤ length row) →
  ∃ solution',
    CudaSimulationEngine.solveLinearSystem matrix rhs solution
      = Some (true, solution') ∧
    length solution' = length matrix ∧
    ∀ k row d, matrix !! k = Some row → row !! k = Some d →
      (d =? 0)%float = true →
      solution' !! k = Some (default 0%float (solution !! k)).
Proof.
  intros Hrhs Hrows. unfold CudaSimulationEngine.solveLinearSystem.
  destruct (iterate_spec matrix rhs 100
              (CudaSimulationEngine.resize (length matrix) 0%float solution))
    as (s' & -> & Hlen & Hkeep); [done|done|apply length_resize|].
  cbn [mbind option_bind]. exists s'. split; [done|]. split; [done|].
  intros k row d Hk Hd Hz. rewrite (Hkeep k row d Hk Hd Hz).
  apply lookup_resize. by apply lookup_lt_Some in Hk.
Qed.

Lemma solveLinearSystem_spec_witness :
  ∃ solution',
    CudaSimulationEngine.solveLinearSystem
      [[2; 1]; [1; 0]]%float [3; 4]%float [7; 9]%float
      = Some (true, solution') ∧
    length solution' = 2 ∧
    solution' !! 1 = Some 9%float.
Proof.
  destruct (solveLinearSystem_spec [[2; 1]; [1; 0]]%float [3; 4]%float
              [7; 9]%float) as (s' & Hrun & Hlen & Hkeep).
  - simpl. lia.
  - intros row Hrow. apply list_elem_of_lookup_1 in Hrow as [i Hi].
    destruct i as [|[|i]]; simpl in Hi; [injection Hi as <-..|done];
      simpl; lia.
  - exists s'. split; [exact Hrun|]. split; [exact Hlen|].
    apply (Hkeep 1 [1; 0]%float 0%float); reflexivity.
Defined.

(** ** What a Resistor or a Diode reads when the simulation returns *)

Lemma pass_keeps_settled exp dt dt0 items st st' p c1 :
  component_objs st !! p = Some c1 →
  memoryless c1 →
  Component.simulate exp (node_objs st) dt0 c1 = Some c1 →
  Circuit.simulate_all exp dt items st = Some st' →
  component_objs st' !! p = Some c1.
Proof.
  revert st. induction items as [|[id q] items IH]; intros st Hp Hm Hfix H.
  - by injection H as <-.
  - cbn [Circuit.simulate_all] in H.
    destruct (simulate_at exp dt q st) as [st1|] eqn:H1; [|done].
    cbn [mbind option_bind] in H.
    destruct (simulate_at_frame _ _ _ _ _ H1) as [Hnodes Hframe].
    apply (IH st1); [|done|by rewrite Hnodes|done].
    destruct (decide (p = q)) as [->|Hne]; [|by rewrite Hframe].
    unfold simulate_at in H1. rewrite Hp in H1. cbn [mbind option_bind] in H1.
    destruct (memoryless_settled exp (node_objs st) dt0 dt c1 c1 Hm Hfix)
      as [_ Hdt].
    rewrite Hdt in H1. cbn [mbind option_bind] in H1. injection H1 as <-.
    simpl. by rewrite lookup_insert_eq.
Qed.

Lemma pass_computes exp dt items st st' p c :
  component_objs st !! p = Some c →
  memoryless c →
  p ∈ items.*2 →
  Circuit.simulate_all exp dt items st = Some st' →
  ∃ c1, Component.simulate exp (node_objs st) dt c = Some c1 ∧
        memoryless c1 ∧
        component_objs st' !! p = Some c1.
Proof.
  revert st. induction items as [|[id q] items IH]; intros st Hp Hm Hin H.
  - by apply elem_of_nil in Hin.
  - change (((id, q) :: items).*2) with (q :: items.*2) in Hin.
    cbn [Circuit.simulate_all] in H.
    destruct (simulate_at exp dt q st) as [st1|] eqn:H1; [|done].
    cbn [mbind option_bind] in H.
    destruct (simulate_at_frame _ _ _ _ _ H1) as [Hnodes Hframe].
    destruct (decide (p = q)) as [->|Hne].
    + unfold simulate_at in H1. rewrite Hp in H1.
      cbn [mbind option_bind] in H1.
      destruct (Component.simulate exp (node_objs st) dt c) as [c1|] eqn:Hs;
        [|done].
      cbn [mbind option_bind] in H1. injection H1 as <-.
      destruct (memoryless_settled exp (node_objs st) dt dt c c1 Hm Hs)
        as [Hm1 Hfix].
      exists c1. split; [done|]. split; [done|].
      apply (pass_keeps_settled exp dt dt items
               (set_component q c1 st) st' q c1); try done.
      simpl. by rewrite lookup_insert_eq.
    + apply elem_of_cons in Hin as [?|Hin]; [done|].
      rewrite <- Hnodes. apply (IH st1); try done. by rewrite Hframe.
Qed.

Lemma loop_keeps_settled exp fuel self duration timestep time calls st st'
    calls' p c1 :
  component_objs st !! p = Some c1 →
  memoryless c1 →
  Component.simulate exp (node_objs st) timestep c1 = Some c1 →
  Circuit.simulate_loop exp fuel self duration timestep time calls st
    = Returned st' calls' →
  component_objs st' !! p = Some c1.
Proof.
  revert time calls st.
  induction fuel as [|fuel IH]; intros time calls st Hp Hm Hfix H;
    cbn [Circuit.simulate_loop] in H.
  - destruct (time <? duration)%float; [done|]. by injection H as <- _.
  - destruct (time <? duration)%float; [|by injection H as <- _].
    destruct (Circuit.simulate_all exp timestep
                (std_map_items (Circuit.components_ self)) st)
      as [st1|] eqn:H1; [|done].
    refine (IH _ _ st1 _ Hm _ H).
    + exact (pass_keeps_settled _ _ _ _ _ _ _ _ Hp Hm Hfix H1).
    + by rewrite (simulate_all_nodes _ _ _ _ _ H1).
Qed.

(** X25.  When [Circuit::simulate] with a positive [duration] returns, a Resistor
    or Diode of the circuit is in the state one [simulate(timestep)] gives
    it from its state on entry, however many passes were made; a Resistor
    with two live terminals reads [(v0 - v1) / R] for the voltages its
    terminals had on entry. *)
Theorem simulate_memoryless_reading (exp : float → float) (fuel : nat)
    (self : Circuit.t) (duration timestep : float) (st st' : Store)
    (calls : nat) (id : string) (p : nat) (c : Component.t) :
  Circuit.simulate exp fuel self duration timestep st = Returned st' calls →
  (0 <? duration)%float = true →
  Circuit.getComponent id self = Some p →
  component_objs st !! p = Some c →
  memoryless c →
  ∃ c', Component.simulate exp (node_objs st) timestep c = Some c' ∧
    component_objs st' !! p = Some c' ∧
    (∀ r p0 p1 n0 n1,
       Component.self_ c = Component.IsResistor r →
       Component.nodes_ c !! 0 = Some p0 →
       Component.nodes_ c !! 1 = Some p1 →
       node_objs st !! p0 = Some n0 →
       node_objs st !! p1 = Some n1 →
       Component.getCurrentValue c'
       = ((Node.getVoltage n0 - Node.getVoltage n1)
          / Resistor.getResistance r)%float).
Proof.
  unfold Circuit.simulate. intros Hrun Hpos Hid Hp Hm.
  destruct fuel as [|fuel]; cbn [Circuit.simulate_loop] in Hrun;
    rewrite Hpos in Hrun; [done|].
  destruct (Circuit.simulate_all exp timestep
              (std_map_items (Circuit.components_ self)) st)
    as [st1|] eqn:H1; [|done].
  destruct (pass_computes exp timestep
              (std_map_items (Circuit.components_ self)) st st1 p c Hp Hm)
    as (c1 & Hs & Hm1 & Hp1); [|done|].
  { apply list_elem_of_fmap. exists (id, p). split; [done|].
    by apply elem_of_std_map_items. }
  exists c1. split; [done|]. split.
  - refine (loop_keeps_settled _ _ _ _ _ _ _ _ _ _ _ _ Hp1 Hm1 _ Hrun).
    rewrite (simulate_all_nodes _ _ _ _ _ H1).
    by destruct (memoryless_settled exp (node_objs st) timestep timestep
                   c c1 Hm Hs).
  - intros r p0 p1 n0 n1 Hr H0 H1' Hn0 Hn1.
    unfold Component.simulate, Resistor.simulate in Hs. rewrite Hr in Hs.
    rewrite (terminal_voltage_Some _ _ _ _ _ H0 Hn0) in Hs.
    rewrite (terminal_voltage_Some _ _ _ _ _ H1' Hn1) in Hs.
    destruct (decide (2 ≤ length (Component.nodes_ c))) as [_|Hlen].
    + simpl in Hs. by injection Hs as <-.
    + exfalso. apply Hlen. apply lookup_lt_Some in H1'. lia.
Qed.

Lemma simulate_memoryless_reading_witness :
  ∃ st' c', Circuit.simulate (λ x, x) 10 rc_circuit 3e-6%float 1e-6%float
              rc_store = Returned st' 6 ∧
    component_objs st' !! 10 = Some c' ∧
    Component.getCurrentValue c' = ((5 - 0) / 1000)%float.
Proof.
  destruct (Circuit.simulate (λ x, x) 10 rc_circuit 3e-6%float 1e-6%float
              rc_store) as [st' calls| |] eqn:Hrun;
    [|vm_compute in Hrun; discriminate..].
  assert (calls = 6) as ->.
  { vm_compute in Hrun. by injection Hrun as _ <-. }
  destruct (simulate_memoryless_reading (λ x, x) 10 rc_circuit 3e-6%float
              1e-6%float rc_store st' 6 "R1" 10
              (Component.make "R1" [1; 2]
                 (Component.IsResistor (Resistor.new 1000%float))))
    as (c' & _ & Hp & Hread); [exact Hrun|reflexivity|reflexivity|reflexivity|
                               exact I|].
  exists st', c'. split; [reflexivity|]. split; [exact Hp|].
  apply (Hread (Resistor.new 1000%float) 1 2
           (Node.make "VCC" 5%float [10]) (Node.make "OUT" 0%float [10; 11]));
    reflexivity.
Defined.

(** ** Which plugin makes the component *)

#[global] Instance key_le_trans {V : Type} : Transitive (@key_le V).
Proof.
  intros [a x] [b y] [c z]. unfold key_le. simpl. intros Hab Hbc.
  destruct (decide (a = b)) as [->|Hnab]; [done|].
  destruct (decide (b = c)) as [->|Hnbc]; [done|].
  pose proof (str_le_neq_lt a b Hab Hnab) as H1.
  pose proof (str_le_neq_lt b c Hbc Hnbc) as H2.
  pose proof (str_lt_trans a b c H1 H2) as H3.
  unfold str_lt, String.ltb in H3. unfold String.leb.
  by destruct (String.compare a c).
Qed.

Lemma createComponent_loop_first items type parameters name plugin
    component :
  StronglySorted key_le items →
  NoDup items.*1 →
  (name, plugin) ∈ items →
  type ∈ IPlugin_getSupportedComponents plugin →
  IPlugin_createComponent plugin type parameters = Some component →
  (∀ name' plugin', (name', plugin') ∈ items → str_lt name' name →
     type ∈ IPlugin_getSupportedComponents plugin' →
     IPlugin_createComponent plugin' type parameters = None) →
  PluginManager.createComponent_loop items type parameters = Some component.
Proof.
  induction items as [|[k pl] items IH];
    intros Hsorted Hnodup Hin Hlists Hmakes Hbefore.
  - by apply elem_of_nil in Hin.
  - apply StronglySorted_inv in Hsorted as [Hsorted Hhead].
    change (((k, pl) :: items).*1) with (k :: items.*1) in Hnodup.
    apply NoDup_cons in Hnodup as [Hk Hnodup].
    cbn [PluginManager.createComponent_loop].
    apply elem_of_cons in Hin as [Heq|Hin].
    + injection Heq as <- <-. rewrite decide_True by done. by rewrite Hmakes.
    + assert (str_lt k name) as Hlt.
      { apply str_le_neq_lt.
        - rewrite Forall_forall in Hhead. apply (Hhead (name, plugin) Hin).
        - intros ->. apply Hk. apply list_elem_of_fmap.
          by exists (name, plugin). }
      assert (PluginManager.createComponent_loop items type parameters
              = Some component) as Hrest.
      { apply IH; try done. intros n' p' Hin'. apply Hbefore. by right. }
      destruct (decide (type ∈ IPlugin_getSupportedComponents pl)) as [Hl|];
        [|done].
      rewrite (Hbefore k pl); [done|by left|done|done].
Qed.

(** X26.  [PluginManager::createComponent] asks the plugins in ascending order
    of their names: the component comes from the first plugin, in that
    order, that lists the type and produces one. *)
Theorem createComponent_first_by_name (self : PluginManager.t)
    (type : string) (parameters : gmap string float) (name : string)
    (plugin : IPlugin) (component : Component.t) :
  PluginManager.getPlugin name self = Some plugin →
  type ∈ IPlugin_getSupportedComponents plugin →
  IPlugin_createComponent plugin type parameters = Some component →
  (∀ name' plugin', PluginManager.getPlugin name' self = Some plugin' →
     str_lt name' name →
     type ∈ IPlugin_getSupportedComponents plugin' →
     IPlugin_createComponent plugin' type parameters = None) →
  PluginManager.createComponent self type parameters = Some component.
Proof.
  intros Hreg Hlists Hmakes Hbefore. unfold PluginManager.createComponent.
  apply (createComponent_loop_first _ _ _ name plugin); try done.
  - apply Sorted_StronglySorted; [apply _|apply std_map_items_ascending].
  - apply NoDup_std_map_items_keys.
  - by apply elem_of_std_map_items.
  - intros n' p' Hin. apply Hbefore. by apply elem_of_std_map_items in Hin.
Qed.

Lemma createComponent_first_by_name_witness :
  PluginManager.createComponent
    (PluginManager.make
       (<["Basic" := BasePlugin.as_IPlugin ExamplePlugin.new]>
          (<["Extra" := BasePlugin.as_IPlugin ExamplePlugin.new]> ∅)) ∅)
    "Inductor" (<["inductance" := 2e-3%float]> ∅)
  = Some (Component.new (Component.IsInductor (Inductor.new 2e-3%float))).
Proof.
  apply (createComponent_first_by_name _ _ _ "Basic"
           (BasePlugin.as_IPlugin ExamplePlugin.new)).
  - reflexivity.
  - apply list_elem_of_here.
  - reflexivity.
  - intros name' plugin' Hreg Hlt. exfalso.
    unfold PluginManager.getPlugin in Hreg. simpl in Hreg.
    apply lookup_insert_Some in Hreg as [[<- _]|[_ Hreg]];
      [by vm_compute in Hlt|].
    apply lookup_insert_Some in Hreg as [[<- _]|[_ Hreg]];
      [by vm_compute in Hlt|].
    by rewrite lookup_empty in Hreg.
Defined.

(** ** Loads that fail before an instance exists *)

(** X27.  A load that fails before an instance exists (the library cannot
    be opened, it does not export [createPlugin], or the factory answers
    null) answers false and leaves the process exactly as it was: the
    registry and the handle map are unchanged and the library the call
    opened, if any, was closed again. *)
Theorem loadPlugin_early_failure_atomic (ld : Loader) (plugin_path : string)
    (w : PluginManager.Process) :
  (LOAD_LIBRARY ld plugin_path = None ∨
   ∃ handle, LOAD_LIBRARY ld plugin_path = Some handle ∧
     (GET_PROC_ADDRESS ld handle "createPlugin" = None ∨
      ∃ createPlugin,
        GET_PROC_ADDRESS ld handle "createPlugin" = Some createPlugin ∧
        createPlugin () = None)) →
  PluginManager.loadPlugin ld plugin_path w = Some (false, w).
Proof.
  unfold PluginManager.loadPlugin.
  intros [Hopen|(handle & Hopen & [Hsym|(f & Hsym & Hnew)])].
  - by rewrite Hopen.
  - rewrite Hopen, Hsym. cbv zeta. by rewrite close_after_open.
  - rewrite Hopen, Hsym, Hnew. cbv zeta. by rewrite close_after_open.
Qed.

Lemma loadPlugin_early_failure_atomic_witness :
  PluginManager.loadPlugin test_loader "nonexistent.so" example_loaded
    = Some (false, example_loaded) ∧
  PluginManager.loadPlugin test_loader "plugins/libc.so" example_loaded
    = Some (false, example_loaded) ∧
  PluginManager.loadPlugin test_loader "plugins/libnull.so" example_loaded
    = Some (false, example_loaded).
Proof.
  split; [|split]; apply (loadPlugin_early_failure_atomic test_loader).
  - left. reflexivity.
  - right. exists 2. split; [reflexivity|]. left. reflexivity.
  - right. exists 3. split; [reflexivity|]. right.
    exists (λ _, None). split; reflexivity.
Defined.
